(** * bSDD class-tree crawlers: a shallow embedding of [main.py] and [data.py]

    [main.py] crawls the class pages wave by wave with a thread pool
    ([crawl_all_classes]); [data.py] walks the REST API recursively
    ([fetch_ifc_data]).  Both keep a [visited] set and an output list.
    Python sets are [gset string], dicts used as maps are [gmap], lists
    are lists, and a call that may raise returns a [result]. *)

From stdpp Require Import base list strings gmap sets relations.

#[global] Set Warnings "-clear-no-such-hyp".

(** ** Exceptions and the try/except combinator *)

(** The two handlers of the repository distinguish [requests.RequestException]
    (the only class [data.py] catches) from every other [Exception]
    ([KeyError], [ValueError], a Selenium error, ...), which [main.py]
    catches as well. *)
Inductive exc : Type :=
  | RequestException (msg : string)
  | OtherException (msg : string).

Inductive result (A : Type) : Type :=
  | Returned (a : A)
  | Raised (e : exc).
Arguments Returned {A} a.
Arguments Raised {A} e.

#[global] Instance result_ret : MRet result := λ A a, Returned a.
#[global] Instance result_bind : MBind result := λ A B f m,
  match m with
  | Returned a => f a
  | Raised e => Raised e
  end.

Definition is_Returned {A} (r : result A) : bool :=
  match r with Returned _ => true | Raised _ => false end.

(** [except Exception]: every modelled exception is an [Exception]. *)
Definition isinstance_Exception (e : exc) : bool := true.

(** [except requests.RequestException]. *)
Definition isinstance_RequestException (e : exc) : bool :=
  match e with RequestException _ => true | OtherException _ => false end.

(** [try: body except <cls> as e: handler e]. *)
Definition try_except {A} (body : result A) (cls : exc → bool)
    (handler : exc → result A) : result A :=
  match body with
  | Returned a => Returned a
  | Raised e => if cls e then handler e else Raised e
  end.

(** ** main.py: the wave-based, multithreaded crawl *)

Module Main.

Record incoming_relation : Type := {
  relates_with : string;
  direction : string;
  uri : string;
  type : string;
  dictionary : string;
  version_status : string
}.

Record property : Type := {
  name : string;
  data_type : string;
  definition : string
}.

(** What Selenium and BeautifulSoup extract from one rendered class page:
    the dict of [parse_html] and the list of [extract_all_properties]. *)
Record page : Type := {
  page_class_name : string;
  page_code : string;
  page_child_classes : list string;
  page_relations : list string;
  page_incoming_relations : list incoming_relation;
  page_properties : list property
}.

(** The [data] dict returned by [crawl_one_class]. *)
Record class_data : Type := {
  class_name : string;
  code : string;
  child_classes : list string;
  relations : list string;
  incoming_relations : list incoming_relation;
  url : string;
  properties : list property
}.

Definition SITE : string := "https://identifier.buildingsmart.org".

(** [if child_url.startswith("/"): child_url = SITE + child_url]. *)
Definition absolute (child_url : string) : string :=
  if String.prefix "/" child_url then SITE +:+ child_url else child_url.

Record crawl_state : Type := {
  visited : gset string;
  results : list class_data;
  to_crawl : list string
}.

Section crawl.
(** The browser session of [crawl_one_class] up to [parse_html]: the page
    of a URL, or the exception raised on the way. *)
Variable render : string → result page.

Definition crawl_one_class (u : string) : result (class_data * list string) :=
  p ← render u;
  let data := {| class_name := page_class_name p;
                 code := page_code p;
                 child_classes := page_child_classes p;
                 relations := page_relations p;
                 incoming_relations := page_incoming_relations p;
                 url := u;
                 properties := page_properties p |} in
  Returned (data, absolute <$> child_classes data).

(** The values of the [futures] dict, in submission order: one future per
    occurrence of a URL of [to_crawl] that is not in [visited]. *)
Definition futures (st : crawl_state) : list string :=
  filter (λ u, u ∉ visited st) (to_crawl st).

(** The [try] body after [future.result()] returned. *)
Definition on_success (st : crawl_state) (u : string)
    (r : class_data * list string) : crawl_state :=
  let visited' := visited st ∪ {[u]} in
  {| visited := visited';
     results := results st ++ [r.1];
     to_crawl := to_crawl st ++ filter (λ c, c ∉ visited') r.2 |}.

(** One iteration of [for future in as_completed(futures)]. *)
Definition process_future (st : crawl_state) (u : string) : result crawl_state :=
  try_except
    (r ← crawl_one_class u; Returned (on_success st u r))
    isinstance_Exception
    (λ _, Returned st).

Fixpoint for_each_future (completed : list string) (st : crawl_state)
    : result crawl_state :=
  match completed with
  | [] => Returned st
  | u :: rest => st' ← process_future st u; for_each_future rest st'
  end.

(** The body of [while to_crawl:], the futures completing in the order
    [completed]. *)
Definition run_wave (completed : list string) (st : crawl_state)
    : result crawl_state :=
  for_each_future completed
    {| visited := visited st; results := results st; to_crawl := [] |}.

(** [as_completed k fs]: the order in which the futures [fs] of wave [k]
    complete. *)
Variable as_completed : nat → list string → list string.

Fixpoint crawl_loop (k fuel : nat) (st : crawl_state)
    : option (result (list class_data)) :=
  match fuel with
  | 0 => None
  | S fuel' =>
      match to_crawl st with
      | [] => Some (Returned (results st))
      | _ :: _ =>
          match run_wave (as_completed k (futures st)) st with
          | Returned st' => crawl_loop (S k) fuel' st'
          | Raised e => Some (Raised e)
          end
      end
  end.

(** The URL lists submitted to the executor, wave by wave. *)
Fixpoint submitted (k fuel : nat) (st : crawl_state) : list (list string) :=
  match fuel with
  | 0 => []
  | S fuel' =>
      match to_crawl st with
      | [] => []
      | _ :: _ =>
          futures st ::
          match run_wave (as_completed k (futures st)) st with
          | Returned st' => submitted (S k) fuel' st'
          | Raised _ => []
          end
      end
  end.

Definition initial (start_url : string) : crawl_state :=
  {| visited := ∅; results := []; to_crawl := [start_url] |}.

Definition crawl_all_classes (fuel : nat) (start_url : string)
    : option (result (list class_data)) :=
  crawl_loop 0 fuel (initial start_url).
End crawl.

(** One wave of the crawl, with any completion order. *)
Definition wave_step (render : string → result page)
    (st st' : crawl_state) : Prop :=
  to_crawl st ≠ [] ∧
  ∃ completed, completed ≡ₚ futures st ∧ run_wave render completed st = Returned st'.

End Main.

(** ** data.py: the recursive crawl over the REST API *)

Module Data.

(** The JSON objects of the three responses.  A key read with [.get] is an
    [option] ([None]: the key is absent); a key read with [child["..."]]
    is a plain field. *)
Record child_ref : Type := {
  ref_uri : string;
  ref_code : string
}.

Record class_json : Type := {
  cj_name : option string;
  cj_code : option string;
  cj_uri : option string;
  childClassReferences : list child_ref
}.

Record property_json : Type := {
  propertySet : option string;
  pj_name : option string;
  dataType : option string;
  pj_definition : option string
}.

Record relation_json : Type := {
  relationType : option string;
  classUri : option string;
  className : option string;
  dictionaryUri : option string
}.

Record relations_json : Type := {
  rj_classUri : option string;
  areReversedRelations : option bool;
  totalCount : option Z;
  rj_offset : option Z;
  rj_count : option Z;
  classRelations : list relation_json
}.

(** The dicts of the output document. *)
Record property : Type := {
  name : string;
  data_type : string;
  definition : string
}.

Record class_relation : Type := {
  relation_type : string;
  class_uri : string;
  class_name_of : string;
  dictionary_uri : string
}.

Record relations_info : Type := {
  info_class_uri : string;
  are_reversed_relations : bool;
  total_count : Z;
  offset : Z;
  count : Z
}.

Record obj : Type := {
  class_name : string;
  code : string;
  child_classes : list string;
  relations : list class_relation;
  incoming_relations : list class_relation;
  url : string;
  properties : gmap string (list property);
  rel_info : relations_info
}.

Record state : Type := {
  visited : gset string;
  output : list obj
}.

(** How a call of [fetch_class] ends. *)
Inductive outcome : Type :=
  | Normal
  | Propagates (e : exc)
  | OutOfFuel.

(** The body of [for p in properties_data]. *)
Definition group_property (by_category : gmap string (list property))
    (p : property_json) : gmap string (list property) :=
  let category := default "Attributes" (propertySet p) in
  let category := if decide (category = "") then "Attributes" else category in
  let by_category :=
    match by_category !! category with
    | None => <[category := []]> by_category
    | Some _ => by_category
    end in
  alter (λ l, l ++ [ {| name := default "" (pj_name p);
                        data_type := default "" (dataType p);
                        definition := default "" (pj_definition p) |} ])
        category by_category.

Definition placeholder : property :=
  {| name := "Attributes"; data_type := "not in bSDD"; definition := "" |}.

(** [properties_by_category] as stored in the record: the grouped
    properties, or the catch-all category when there are none. *)
Definition properties_by_category (properties_data : list property_json)
    : gmap string (list property) :=
  let grouped := foldl group_property ∅ properties_data in
  if decide (grouped = ∅) then <["Attributes" := [placeholder]]> grouped
  else grouped.

Definition class_relation_of (r : relation_json) : class_relation :=
  {| relation_type := default "" (relationType r);
     class_uri := default "" (classUri r);
     class_name_of := default "" (className r);
     dictionary_uri := default "" (dictionaryUri r) |}.

(** Run [f] on each child in turn; an exception or the end of the fuel
    stops the loop, the state reached so far stays. *)
Fixpoint for_each_child (f : string → state → state * outcome)
    (children : list string) (st : state) : state * outcome :=
  match children with
  | [] => (st, Normal)
  | c :: rest =>
      match f c st with
      | (st', Normal) => for_each_child f rest st'
      | stopped => stopped
      end
  end.

(** [except requests.RequestException as e: debug(...)]. *)
Definition except_RequestException (st : state) (e : exc) : state * outcome :=
  if isinstance_RequestException e then (st, Normal) else (st, Propagates e).

Section fetch.
(** The three endpoints, by class code: [raise_for_status] and [.json()]
    included, [get_properties] up to [.get("classProperties", [])]. *)
Variable get_class : string → result class_json.
Variable get_properties : string → result (list property_json).
Variable get_relations : string → result relations_json.
(** [urllib.parse.urlparse(u).path]. *)
Variable urlparse_path : string → string.

(** The [try] body up to the record [obj], which touches neither
    [visited] nor [output]. *)
Definition build_obj (class_code : string) : result (obj * list string) :=
  class_data ← get_class class_code;
  properties_data ← get_properties class_code;
  relations_data ← get_relations class_code;
  let o := {|
    class_name := default "" (cj_name class_data);
    code := default "" (cj_code class_data);
    child_classes :=
      (λ child, urlparse_path (ref_uri child)) <$> childClassReferences class_data;
    relations := class_relation_of <$> classRelations relations_data;
    incoming_relations := [];
    url := default "" (cj_uri class_data);
    properties := properties_by_category properties_data;
    rel_info := {|
      info_class_uri := default "" (rj_classUri relations_data);
      are_reversed_relations := default false (areReversedRelations relations_data);
      total_count := default 0%Z (totalCount relations_data);
      offset := default 0%Z (rj_offset relations_data);
      count := default 0%Z (rj_count relations_data) |} |} in
  Returned (o, ref_code <$> childClassReferences class_data).

Fixpoint fetch_class (fuel : nat) (class_code : string) (st : state)
    : state * outcome :=
  match fuel with
  | 0 => (st, OutOfFuel)
  | S fuel' =>
      if decide (class_code ∈ visited st) then (st, Normal)
      else
        let st := {| visited := visited st ∪ {[class_code]};
                     output := output st |} in
        match build_obj class_code with
        | Raised e => except_RequestException st e
        | Returned (o, children) =>
            let st := {| visited := visited st; output := output st ++ [o] |} in
            match for_each_child (fetch_class fuel') children st with
            | (st', Normal) => (st', Normal)
            | (st', Propagates e) => except_RequestException st' e
            | (st', OutOfFuel) => (st', OutOfFuel)
            end
        end
  end.

Definition fetch_ifc_data (fuel : nat) (start_class : string)
    : option (result (list obj)) :=
  match fetch_class fuel start_class {| visited := ∅; output := [] |} with
  | (st, Normal) => Some (Returned (output st))
  | (_, Propagates e) => Some (Raised e)
  | (_, OutOfFuel) => None
  end.
End fetch.

End Data.

(** ** Vocabulary of the statements *)

Module Wave.
Import Main.

Section outcomes.
Variable render : string → result page.

(** The fetch of [u] returns. *)
Definition succeeded (u : string) : Prop :=
  is_Returned (crawl_one_class render u) = true.

#[global] Instance succeeded_dec u : Decision (succeeded u).
Proof. unfold succeeded. apply _. Defined.

(** The record of [u], when its fetch returns. *)
Definition data_of (u : string) : option class_data :=
  match crawl_one_class render u with
  | Returned r => Some r.1
  | Raised _ => None
  end.

(** The child URLs of [u], none when its fetch raises. *)
Definition children_of (u : string) : list string :=
  match crawl_one_class render u with
  | Returned r => r.2
  | Raised _ => []
  end.

(** Whatever is in [visited] was put there by a fetch that returned. *)
Definition visited_succeeded (st : crawl_state) : Prop :=
  ∀ u, u ∈ visited st → succeeded u.

(** A finite child graph: every child URL of a page of [U] is in [U]. *)
Definition closed (U : gset string) : Prop :=
  ∀ u c, u ∈ U → c ∈ children_of u → c ∈ U.

(** The states the crawl from [start_url] can be in between two waves. *)
Definition reachable (start_url : string) (st : crawl_state) : Prop :=
  rtc (wave_step render) (initial start_url) st.
End outcomes.

(** The loop has left [while to_crawl:]. *)
Definition terminal (st : crawl_state) : Prop := to_crawl st = [].

(** The URLs of [results] are those of [visited], each recorded once. *)
Definition results_match_visited (st : crawl_state) : Prop :=
  NoDup (url <$> results st) ∧ ∀ u, u ∈ url <$> results st ↔ u ∈ visited st.

(** Two states that differ only in the order of what they hold. *)
Definition same_up_to_order (st1 st2 : crawl_state) : Prop :=
  visited st1 = visited st2 ∧
  results st1 ≡ₚ results st2 ∧
  futures st1 ≡ₚ futures st2.

(** A completion order: the futures of each wave, permuted. *)
Definition completion_order (as_completed : nat → list string → list string) : Prop :=
  ∀ k fs, as_completed k fs ≡ₚ fs.

End Wave.

(** A record of [data.py] whose [properties] are those of some response of
    the properties endpoint, grouped, and not empty. *)
Definition grouped_properties
    (get_properties : string → result (list Data.property_json))
    (o : Data.obj) : Prop :=
  Data.properties o ≠ ∅ ∧
  ∃ class_code properties_data,
    get_properties class_code = Returned properties_data ∧
    Data.properties o = Data.properties_by_category properties_data.

(** A finite graph of classes: the codes of the children of a class of
    [U] are in [U]. *)
Definition api_closed (get_class : string → result Data.class_json)
    (U : gset string) : Prop :=
  ∀ class_code class_data child,
    class_code ∈ U → get_class class_code = Returned class_data →
    child ∈ Data.childClassReferences class_data → Data.ref_code child ∈ U.

(** ** Two small class graphs *)

Module Scenario.

Definition in_submission_order : nat → list string → list string := λ _ fs, fs.
Definition last_submitted_first : nat → list string → list string := λ _ fs, reverse fs.

Definition page_of (name : string) (children : list string) : Main.page :=
  {| Main.page_class_name := name;
     Main.page_code := name;
     Main.page_child_classes := children;
     Main.page_relations := [];
     Main.page_incoming_relations := [];
     Main.page_properties := [] |}.

Definition record_of (name : string) (children : list string) : Main.class_data :=
  {| Main.class_name := name;
     Main.code := name;
     Main.child_classes := children;
     Main.relations := [];
     Main.incoming_relations := [];
     Main.url := name;
     Main.properties := [] |}.

(** Root -> A, B;  A -> C;  B -> nothing;  C -> Root. *)
Definition cycle_children (u : string) : option (list string) :=
  if decide (u = "Root") then Some ["A"; "B"]
  else if decide (u = "A") then Some ["C"]
  else if decide (u = "B") then Some []
  else if decide (u = "C") then Some ["Root"]
  else None.

(** Root -> A, B;  A -> Z;  B -> Z;  Z -> nothing. *)
Definition diamond_children (u : string) : option (list string) :=
  if decide (u = "Root") then Some ["A"; "B"]
  else if decide (u = "A") then Some ["Z"]
  else if decide (u = "B") then Some ["Z"]
  else if decide (u = "Z") then Some []
  else None.

(** P -> X, S;  S -> X;  X does not load. *)
Definition retry_children (u : string) : option (list string) :=
  if decide (u = "P") then Some ["X"; "S"]
  else if decide (u = "S") then Some ["X"]
  else None.

Definition site (children : string → option (list string)) (u : string)
    : result Main.page :=
  match children u with
  | Some cs => Returned (page_of u cs)
  | None => Raised (OtherException "no such page")
  end.

(** The state after [n] waves whose futures complete in submission order. *)
Fixpoint after_waves (render : string → result Main.page) (n : nat)
    (st : Main.crawl_state) : Main.crawl_state :=
  match n with
  | 0 => st
  | S n' =>
      match Main.run_wave render (Main.futures st) st with
      | Returned st' => after_waves render n' st'
      | Raised _ => st
      end
  end.

Definition api_class (children : string → option (list string)) (c : string)
    : result Data.class_json :=
  match children c with
  | Some cs =>
      Returned {| Data.cj_name := Some c; Data.cj_code := Some c; Data.cj_uri := Some c;
                  Data.childClassReferences :=
                    (λ k, {| Data.ref_uri := k; Data.ref_code := k |}) <$> cs |}
  | None => Raised (RequestException "404")
  end.

Definition api_properties (c : string) : result (list Data.property_json) :=
  Returned [].

Definition api_relations (c : string) : result Data.relations_json :=
  Returned {| Data.rj_classUri := Some c; Data.areReversedRelations := None;
              Data.totalCount := None; Data.rj_offset := None; Data.rj_count := None;
              Data.classRelations := [] |}.

(** [urlparse(u).path] of a string without scheme, query or fragment. *)
Definition path_of (u : string) : string := u.

Definition api_crawl (children : string → option (list string)) (fuel : nat)
    (start_class : string) : option (result (list Data.obj)) :=
  Data.fetch_ifc_data (api_class children) api_properties api_relations path_of
    fuel start_class.

Definition cycle_site := site cycle_children.
Definition diamond_site := site diamond_children.
Definition retry_site := site retry_children.

Definition cycle_urls : gset string := {["Root"; "A"; "B"; "C"]}.

Definition cycle_records : list Main.class_data :=
  [record_of "Root" ["A"; "B"]; record_of "A" ["C"]; record_of "B" []; record_of "C" ["Root"]].

Definition diamond_records : list Main.class_data :=
  [record_of "Root" ["A"; "B"]; record_of "A" ["Z"]; record_of "B" ["Z"];
   record_of "Z" []; record_of "Z" []].

End Scenario.

(** ** The class graph behind a crawl *)

Module Graph.
Import Main Wave.

Section pages.
Variable render : string → result page.

(** The page of [u] loads and lists [c] among its children. *)
Definition link (u c : string) : Prop :=
  succeeded render u ∧ c ∈ children_of render u.

(** [u] is the start URL or can be reached from it through pages that
    load. *)
Definition discoverable (start_url u : string) : Prop :=
  rtc link start_url u.
(** Nothing discovered is forgotten: a child of a visited page is visited,
    is waiting in [to_crawl], or does not load; and so for the start URL. *)
Definition nothing_forgotten (start_url : string) (st : crawl_state) : Prop :=
  (∀ u c, u ∈ visited st → c ∈ children_of render u → succeeded render c →
          c ∈ visited st ∨ c ∈ to_crawl st) ∧
  (succeeded render start_url → start_url ∈ visited st ∨ start_url ∈ to_crawl st).

(** Nothing is there without a reason: whatever is visited or waiting can
    be reached from the start URL. *)
Definition nothing_invented (start_url : string) (st : crawl_state) : Prop :=
  (∀ u, u ∈ visited st → discoverable start_url u) ∧
  (∀ u, u ∈ to_crawl st → discoverable start_url u).

(** A wave whose futures are all for different URLs. *)
Definition distinct_wave (st st' : crawl_state) : Prop :=
  wave_step render st st' ∧ NoDup (futures st).

End pages.

(** A page with a relative, an absolute and an empty child reference. *)
Definition mixed_site : string → result page :=
  Scenario.site (λ u, if decide (u = "Root")
                      then Some ["/uri/x/class/A"; "https://other.org/B"; ""]
                      else None).

End Graph.

(** ** The class graph behind the recursive crawl *)

Module ApiGraph.
Import Data.

(** The category a property is filed under: its [propertySet], or
    "Attributes" when the key is missing or empty. *)
Definition category_of (p : property_json) : string :=
  let category := default "Attributes" (propertySet p) in
  if decide (category = "") then "Attributes" else category.

(** The dict appended for a property. *)
Definition entry_of (p : property_json) : property :=
  {| name := default "" (pj_name p);
     data_type := default "" (dataType p);
     definition := default "" (pj_definition p) |}.

Section api.
Variable get_class : string → result class_json.
Variable get_properties : string → result (list property_json).
Variable get_relations : string → result relations_json.
Variable urlparse_path : string → string.

(** The record of a class, when its three requests return. *)
Definition obj_of (class_code : string) : option obj :=
  match build_obj get_class get_properties get_relations urlparse_path class_code with
  | Returned r => Some r.1
  | Raised _ => None
  end.

(** The codes of the children the crawl recurses into. *)
Definition kids (class_code : string) : list string :=
  match build_obj get_class get_properties get_relations urlparse_path class_code with
  | Returned r => r.2
  | Raised _ => []
  end.

Definition api_link (u c : string) : Prop := c ∈ kids u.

Definition api_discoverable (start_class u : string) : Prop :=
  rtc api_link start_class u.

(** One of the three requests for [class_code] raises [e]. *)
Definition raised_by_request (class_code : string) (e : exc) : Prop :=
  get_class class_code = Raised e ∨
  get_properties class_code = Raised e ∨
  get_relations class_code = Raised e.

(** The requests raise nothing but [requests.RequestException]. *)
Definition only_request_errors : Prop :=
  ∀ class_code e,
    raised_by_request class_code e → isinstance_RequestException e = true.

(** What a call that returns normally has done: the classes [new] are
    marked, each for the first time, their records are appended in that
    order, and all their children are marked. *)
Definition explored (from : list string) (st st' : state) (new : list string) : Prop :=
  NoDup new ∧
  (∀ u, u ∈ new → u ∉ visited st) ∧
  visited st' = visited st ∪ list_to_set new ∧
  output st' = output st ++ omap obj_of new ∧
  (∀ c, c ∈ from → c ∈ visited st') ∧
  (∀ u, u ∈ new → ∃ c, c ∈ from ∧ rtc api_link c u) ∧
  (∀ u k, u ∈ new → k ∈ kids u → k ∈ visited st').
End api.

(** An API whose response for class A cannot be decoded. *)
Definition undecodable_class (c : string) : result class_json :=
  if decide (c = "A") then Raised (OtherException "ValueError")
  else Scenario.api_class Scenario.cycle_children c.

Definition undecodable_crawl (fuel : nat) (start_class : string)
    : option (result (list obj)) :=
  fetch_ifc_data undecodable_class Scenario.api_properties Scenario.api_relations
    Scenario.path_of fuel start_class.

End ApiGraph.

(** ** main.py: reading one class page *)

Module Soup.
Import Main.

(** [needle in s]. *)
Definition contains (needle s : string) : bool :=
  bool_decide (is_Some (String.index 0 needle s)).

(** The arguments of a BeautifulSoup search: [find(name, class_=c,
    string=t, href=True)], each but the name optional. *)
Record query : Type := {
  q_name : string;
  q_class : option string;
  q_string : option string;
  q_href : bool
}.

Definition named (n : string) : query :=
  {| q_name := n; q_class := None; q_string := None; q_href := false |}.
Definition with_class (n c : string) : query :=
  {| q_name := n; q_class := Some c; q_string := None; q_href := false |}.
Definition with_string (n t : string) : query :=
  {| q_name := n; q_class := None; q_string := Some t; q_href := false |}.
Definition with_href (n : string) : query :=
  {| q_name := n; q_class := None; q_string := None; q_href := true |}.

(** The dict returned by [parse_html]. *)
Record parsed : Type := {
  parsed_class_name : string;
  parsed_code : string;
  parsed_child_classes : list string;
  parsed_relations : list string;
  parsed_incoming_relations : list incoming_relation
}.

Section bs4.
(** BeautifulSoup, Selenium, [requests] and the string methods of Python,
    as the functions of this file use them. *)
Variable tag : Type.
Variable BeautifulSoup : string → tag.
Variable find : tag → query → option tag.
Variable find_all : tag → query → list tag.
Variable find_next : tag → query → option tag.
(** [t.text] and [t.get_text(strip=True)]. *)
Variable text : tag → string.
Variable get_text_strip : tag → string.
(** [t.get(key)]: [None] when the attribute is missing. *)
Variable get : tag → string → option string.
(** [s.strip()] and [s.lower()]. *)
Variable strip : string → string.
Variable lower : string → string.

(** [t[key]], which raises [KeyError] when the attribute is missing. *)
Definition item (t : tag) (key : string) : result string :=
  match get t key with
  | Some v => Returned v
  | None => Raised (OtherException "KeyError")
  end.

(** The [for row in table.find_all('tr')] loop shared by the two searches
    of [extract_relations]. *)
Definition relation_names (table : tag) (relations : list string) : list string :=
  foldl (λ relations row,
           match find row (with_class "td" "mat-column-name") with
           | Some name_td =>
               match find name_td (named "a") with
               | Some a => relations ++ [strip (text a)]
               | None =>
                   if decide (strip (text name_td) = "") then relations
                   else relations ++ [strip (text name_td)]
               end
           | None => relations
           end)
        relations (find_all table (named "tr")).

(** The heading [div] passes the test of the first loop of [extract_relations]. *)
Definition heading_matches (section_titles : list string) (div : tag) : Prop :=
  existsb (λ title, contains (lower title) (lower (text div))) section_titles
  || contains "incoming" (lower (text div)) = true.

(** The first loop of [extract_relations]: [inl] is what it returns,
    [inr] the list it leaves to the second loop. *)
Fixpoint titled_sections (section_titles : list string) (divs : list tag)
    (relations : list string) : list string + list string :=
  match divs with
  | [] => inr relations
  | div :: rest =>
      if existsb (λ title, contains (lower title) (lower (text div))) section_titles
         || contains "incoming" (lower (text div))
      then
        let relations :=
          match find_next div (named "table") with
          | Some table => relation_names table relations
          | None => relations
          end in
        if decide (relations = []) then titled_sections section_titles rest relations
        else inl relations
      else titled_sections section_titles rest relations
  end.

(** The second loop: the tables whose header mentions "incoming". *)
Fixpoint incoming_tables (tables : list tag) (relations : list string)
    : list string + list string :=
  match tables with
  | [] => inr relations
  | table :: rest =>
      match find table (named "thead") with
      | Some thead =>
          if existsb (λ th, contains "incoming" (lower (text th)))
               (find_all thead (named "th"))
          then
            let relations := relation_names table relations in
            if decide (relations = []) then incoming_tables rest relations
            else inl relations
          else incoming_tables rest relations
      | None => incoming_tables rest relations
      end
  end.

Definition extract_relations (soup : tag) (section_titles : list string)
    : list string :=
  match titled_sections section_titles
          (find_all soup (with_class "div" "bsdd-title-sub")) [] with
  | inl relations => relations
  | inr relations =>
      match incoming_tables (find_all soup (named "table")) relations with
      | inl relations => relations
      | inr relations => relations
      end
  end.

(** One row of the "Incoming relations" table: nothing for a header row
    or a row of fewer than six cells. *)
Definition incoming_row (row : tag) : option incoming_relation :=
  match find row (named "th") with
  | Some _ => None
  | None =>
      match find_all row (named "td") with
      | td0 :: td1 :: td2 :: td3 :: td4 :: td5 :: _ =>
          Some {| relates_with := get_text_strip td0;
                  direction := get_text_strip td1;
                  uri := match find td2 (named "a") with
                         | Some uri_a => strip (default "" (get uri_a "href"))
                         | None => ""
                         end;
                  type := get_text_strip td3;
                  dictionary := get_text_strip td4;
                  version_status := get_text_strip td5 |}
      | _ => None
      end
  end.

(** [for div in ...: if "incoming" in div.text.lower(): ...; break]. *)
Fixpoint incoming_section (divs : list tag) : list incoming_relation :=
  match divs with
  | [] => []
  | div :: rest =>
      if contains "incoming" (lower (text div)) then
        match find_next div (named "table") with
        | Some table => omap incoming_row (find_all table (named "tr"))
        | None => []
        end
      else incoming_section rest
  end.

Definition extract_incoming_relations (soup : tag) : list incoming_relation :=
  incoming_section (find_all soup (with_class "div" "bsdd-title-sub")).

(** One row of the properties table: the definition is the fourth cell. *)
Definition property_row (row : tag) : option property :=
  match find row (named "th") with
  | Some _ => None
  | None =>
      match find_all row (named "td") with
      | td0 :: td1 :: td2 :: more =>
          Some {| name := get_text_strip td0;
                  data_type := get_text_strip td1;
                  definition := match more with
                                | td3 :: _ => get_text_strip td3
                                | [] => ""
                                end |}
      | _ => None
      end
  end.

(** The rows of the page that is shown: the [for div] loop of
    [extract_all_properties]. *)
Fixpoint properties_section (divs : list tag) : list property :=
  match divs with
  | [] => []
  | div :: rest =>
      if contains "properties" (lower (text div)) then
        match find_next div (named "table") with
        | Some table => omap property_row (find_all table (named "tr"))
        | None => []
        end
      else properties_section rest
  end.

Section selenium.
Variable driver : Type.
(** [driver.page_source], taken not to raise. *)
Variable page_source : driver → string.
(** The [try] block at the end of the loop: the browser after a click on
    the enabled "next page" button, [None] when the block raises. *)
Variable click_next : driver → option driver.

Definition shown_properties (d : driver) : list property :=
  properties_section
    (find_all (BeautifulSoup (page_source d)) (with_class "div" "bsdd-title-sub")).

(** [while True:] with the list [properties] built so far; the browser is
    left on the last page shown. *)
Fixpoint extract_all_properties_loop (fuel : nat) (d : driver)
    (properties : list property) : option (list property * driver) :=
  match fuel with
  | 0 => None
  | S fuel' =>
      let properties := properties ++ shown_properties d in
      match click_next d with
      | Some d' => extract_all_properties_loop fuel' d' properties
      | None => Some (properties, d)
      end
  end.

Definition extract_all_properties (fuel : nat) (d : driver)
    : option (list property * driver) :=
  extract_all_properties_loop fuel d [].

(** The pages the loop goes through, the first one included. *)
Fixpoint pages_shown (fuel : nat) (d : driver) : option (list driver) :=
  match fuel with
  | 0 => None
  | S fuel' =>
      match click_next d with
      | Some d' => (d ::.) <$> pages_shown fuel' d'
      | None => Some [d]
      end
  end.
End selenium.

(** The code of the page: the first "Code" field that has a value span. *)
Fixpoint find_code (fields : list tag) : option string :=
  match fields with
  | [] => None
  | field :: rest =>
      match find field (with_string "span" "Code") with
      | Some _ =>
          match find field (with_class "span" "ng-star-inserted") with
          | Some code_span => Some (strip (text code_span))
          | None => find_code rest
          end
      | None => find_code rest
      end
  end.

Fixpoint hrefs (anchors : list tag) : result (list string) :=
  match anchors with
  | [] => Returned []
  | a :: rest => h ← item a "href"; hs ← hrefs rest; Returned (h :: hs)
  end.

Fixpoint find_child_classes (fields : list tag) : result (list string) :=
  match fields with
  | [] => Returned []
  | field :: rest =>
      match find field (with_string "span" "Child classes") with
      | Some _ =>
          here ← hrefs (find_all field (with_href "a"));
          more ← find_child_classes rest;
          Returned (here ++ more)
      | None => find_child_classes rest
      end
  end.

Definition parse_html (html : string) : result parsed :=
  let soup := BeautifulSoup html in
  let class_name :=
    match find soup (with_class "div" "bsdd-title") with
    | Some class_name_div => strip (text class_name_div)
    | None => "Unknown"
    end in
  let code :=
    match find_code (find_all soup (named "app-bsdd-field-value")) with
    | Some c => if decide (c = "") then class_name else c
    | None => class_name
    end in
  child_classes ← find_child_classes (find_all soup (named "app-bsdd-field-uris-list"));
  Returned {| parsed_class_name := class_name;
              parsed_code := code;
              parsed_child_classes := child_classes;
              parsed_relations := extract_relations soup ["Relations"];
              parsed_incoming_relations := extract_incoming_relations soup |}.

Section browser.
Variable driver : Type.
Variable page_source : driver → string.
Variable click_next : driver → option driver.
(** [webdriver.Chrome(options=options)] and [driver.get(url)]. *)
Variable new_driver_get : string → result driver.
(** The body of a [try] block that waits for an accordion and clicks it:
    the browser after it, and the exception if it raised one. *)
Variable click_accordion : string → driver → driver * option exc.

(** [crawl_one_class] with its browser: what [Main.crawl_one_class] takes
    as the page of a URL is read here. *)
Definition crawl_one_class (fuel : nat) (url : string)
    : option (result (class_data * list string)) :=
  match new_driver_get url with
  | Raised e => Some (Raised e)
  | Returned d =>
      let d := (click_accordion "Properties" d).1 in
      let d := (click_accordion "Incoming relations" d).1 in
      match extract_all_properties driver page_source click_next fuel d with
      | None => None
      | Some (properties, d) =>
          let html := page_source d in
          Some (parsed ← parse_html html;
                let data := {| class_name := parsed_class_name parsed;
                               code := parsed_code parsed;
                               child_classes := parsed_child_classes parsed;
                               relations := parsed_relations parsed;
                               incoming_relations := parsed_incoming_relations parsed;
                               Main.url := url;
                               properties := properties |} in
                Returned (data, absolute <$> child_classes data))
      end
  end.

(** The page as [Main.crawl_one_class] wants it. *)
Definition page_of (parsed : parsed) (properties : list property) : page :=
  {| page_class_name := parsed_class_name parsed;
     page_code := parsed_code parsed;
     page_child_classes := parsed_child_classes parsed;
     page_relations := parsed_relations parsed;
     page_incoming_relations := parsed_incoming_relations parsed;
     page_properties := properties |}.
End browser.

(** [get_all_class_urls]: the listed class pages.  The list is that of a
    Python set, in no particular order. *)
Variable requests_get_text : string → result string.

Definition is_class_link (href : string) : bool :=
  contains "/class/" href && String.prefix "/uri/" href.

Definition get_all_class_urls (base_url : string) : result (list string) :=
  html ← requests_get_text base_url;
  links ← hrefs (find_all (BeautifulSoup html) (with_href "a"));
  let class_urls : gset string :=
    list_to_set ((λ href, SITE +:+ href) <$> filter (λ h, is_class_link h = true) links) in
  Returned (elements class_urls).
End bs4.

(** A listing page with three links, two of them to the same class page:
    the elements are numbered, 0 is the document. *)
Definition listing_find_all (t : nat) (q : query) : list nat :=
  if decide (t = 0 ∧ q_name q = "a" ∧ q_href q = true) then [1; 2; 3] else [].

Definition listing_get (t : nat) (key : string) : option string :=
  if decide (key = "href") then
    match t with
    | 1 => Some "/uri/buildingsmart/ifc/4.3/class/IfcWall"
    | 2 => Some "/about/class/"
    | 3 => Some "/uri/buildingsmart/ifc/4.3/class/IfcWall"
    | _ => None
    end
  else None.

Definition listing_urls (base_url : string) : result (list string) :=
  get_all_class_urls nat (λ _, 0) listing_find_all listing_get
    (λ _, Returned "<html>") base_url.

End Soup.

(** ** Properties of the wave-based crawl *)

Module MainFacts.
Import Main Wave.

Section wave.
Variable render : string → result page.
#[local] Abbreviation fetch := (crawl_one_class render).
#[local] Abbreviation succeeded := (succeeded render).
#[local] Abbreviation data_of := (data_of render).
#[local] Abbreviation children_of := (children_of render).
#[local] Abbreviation visited_succeeded := (visited_succeeded render).

(** The handler of the wave loop catches whatever the future raises. *)
Lemma process_future_eq st u :
  process_future render st u =
  Returned (match fetch u with
            | Returned r => on_success st u r
            | Raised _ => st
            end).
Proof.
  unfold process_future, try_except.
  destruct (fetch u) as [r|e]; reflexivity.
Qed.

Lemma for_each_future_eq completed st :
  for_each_future render completed st =
  Returned (foldl (λ s u, match fetch u with
                          | Returned r => on_success s u r
                          | Raised _ => s
                          end) st completed).
Proof.
  revert st. induction completed as [|u rest IH]; intros st; simpl.
  - reflexivity.
  - rewrite process_future_eq. simpl. apply IH.
Qed.

Lemma for_each_future_app c1 c2 st :
  for_each_future render (c1 ++ c2) st =
  for_each_future render c1 st ≫= for_each_future render c2.
Proof.
  rewrite !for_each_future_eq, foldl_app. simpl.
  by rewrite for_each_future_eq.
Qed.

Lemma for_each_future_total completed st :
  ∃ st', for_each_future render completed st = Returned st'.
Proof. rewrite for_each_future_eq. eauto. Qed.

Lemma run_wave_total completed st :
  ∃ st', run_wave render completed st = Returned st'.
Proof. apply for_each_future_total. Qed.

(** *** What one wave leaves behind *)

Lemma fetch_returned u r :
  fetch u = Returned r →
  succeeded u ∧ data_of u = Some r.1 ∧ children_of u = r.2.
Proof.
  intros E. unfold Wave.succeeded, Wave.data_of, Wave.children_of.
  by rewrite E.
Qed.

Lemma fetch_raised u e :
  fetch u = Raised e →
  ¬ succeeded u ∧ data_of u = None ∧ children_of u = [].
Proof.
  intros E. unfold Wave.succeeded, Wave.data_of, Wave.children_of.
  rewrite E. simpl. split; [discriminate | done].
Qed.

Lemma succeeded_returned u : succeeded u → ∃ r, fetch u = Returned r.
Proof.
  unfold Wave.succeeded. destruct (fetch u) as [r|e]; [eauto | discriminate].
Qed.

Ltac next_future u E Hs Hd Hc :=
  simpl; rewrite process_future_eq; simpl;
  destruct (fetch u) as [[? ?]|?] eqn:E;
  [ destruct (fetch_returned _ _ E) as (Hs & Hd & Hc)
  | destruct (fetch_raised _ _ E) as (Hs & Hd & Hc) ];
  simpl in Hd, Hc.

Lemma for_each_future_visited completed st st' :
  for_each_future render completed st = Returned st' →
  visited st' = visited st ∪ list_to_set (filter succeeded completed).
Proof.
  revert st. induction completed as [|u rest IH]; intros st.
  - simpl. intros [= <-]. set_solver.
  - next_future u E Hs Hd Hc; intros Hrest; rewrite (IH _ Hrest).
    + rewrite filter_cons_True by done. simpl. set_solver.
    + by rewrite filter_cons_False.
Qed.

Lemma for_each_future_results completed st st' :
  for_each_future render completed st = Returned st' →
  results st' = results st ++ omap data_of completed.
Proof.
  revert st. induction completed as [|u rest IH]; intros st.
  - simpl. intros [= <-]. by rewrite app_nil_r.
  - next_future u E Hs Hd Hc; intros Hrest; rewrite (IH _ Hrest); simpl.
    + rewrite Hd. simpl. by rewrite <- app_assoc.
    + by rewrite Hd.
Qed.

(** A URL that fails leaves no trace: the wave ends as if its futures had
    never been submitted. *)
Lemma for_each_future_failures completed st :
  for_each_future render completed st =
  for_each_future render (filter succeeded completed) st.
Proof.
  revert st. induction completed as [|u rest IH]; intros st; [done|].
  next_future u E Hs Hd Hc.
  - rewrite filter_cons_True by done. simpl.
    rewrite process_future_eq, E. simpl. apply IH.
  - rewrite filter_cons_False by done. apply IH.
Qed.

Lemma for_each_future_to_crawl_elem completed st st' x :
  for_each_future render completed st = Returned st' →
  x ∈ to_crawl st' →
  x ∈ to_crawl st ∨ ∃ u, u ∈ completed ∧ succeeded u ∧ x ∈ children_of u.
Proof.
  revert st. induction completed as [|u rest IH]; intros st.
  - simpl. intros [= <-]. auto.
  - next_future u E Hs Hd Hc; intros Hrest Hx.
    + destruct (IH _ Hrest Hx) as [Hin|(v & ? & ? & ?)].
      * simpl in Hin. apply elem_of_app in Hin as [?|Hin]; [by left|].
        apply list_elem_of_filter in Hin as [_ Hin]. right. exists u.
        split; [left|]. split; [done|]. by rewrite Hc.
      * right. exists v. split; [by right | done].
    + destruct (IH _ Hrest Hx) as [?|(v & ? & ? & ?)]; [by left|].
      right. exists v. split; [by right | done].
Qed.

(** Filtering by a set that contains every URL marked during the wave
    forgets which children were dropped on the way. *)
Lemma for_each_future_to_crawl completed st st' (V : gset string) :
  for_each_future render completed st = Returned st' →
  visited st' ⊆ V →
  filter (λ x, x ∉ V) (to_crawl st') =
  filter (λ x, x ∉ V) (to_crawl st ++ completed ≫= children_of).
Proof.
  revert st. induction completed as [|u rest IH]; intros st.
  - simpl. intros [= <-] _. by rewrite app_nil_r.
  - next_future u E Hs Hd Hc; intros Hrest HV; rewrite (IH _ Hrest HV); simpl.
    + rewrite Hc, !filter_app, <- app_assoc. do 2 f_equal.
      rewrite list_filter_filter. apply list_filter_iff.
      intros x. split; [tauto|]. intros Hx. split; [done|].
      pose proof (for_each_future_visited _ _ _ Hrest) as Hv.
      simpl in Hv. set_solver.
    + by rewrite Hc.
Qed.

(** *** One wave *)

Lemma run_wave_visited completed st st' :
  run_wave render completed st = Returned st' →
  visited st' = visited st ∪ list_to_set (filter succeeded completed).
Proof. intros H. by rewrite (for_each_future_visited _ _ _ H). Qed.

Lemma run_wave_results completed st st' :
  run_wave render completed st = Returned st' →
  results st' = results st ++ omap data_of completed.
Proof. intros H. by rewrite (for_each_future_results _ _ _ H). Qed.

Lemma run_wave_futures completed st st' :
  run_wave render completed st = Returned st' →
  futures st' = filter (λ x, x ∉ visited st') (completed ≫= children_of).
Proof.
  intros H. unfold futures.
  by rewrite (for_each_future_to_crawl _ _ _ (visited st') H).
Qed.

Lemma run_wave_to_crawl_elem completed st st' x :
  run_wave render completed st = Returned st' →
  x ∈ to_crawl st' →
  ∃ u, u ∈ completed ∧ succeeded u ∧ x ∈ children_of u.
Proof.
  intros H Hx.
  destruct (for_each_future_to_crawl_elem _ _ _ _ H Hx) as [Hnil|?]; [|done].
  simpl in Hnil. by apply elem_of_nil in Hnil.
Qed.

Lemma run_wave_failures completed st :
  run_wave render completed st = run_wave render (filter succeeded completed) st.
Proof. apply for_each_future_failures. Qed.

(** A wave in which no fetch returns leaves nothing to crawl. *)
Lemma run_wave_no_success completed st st' :
  run_wave render completed st = Returned st' →
  filter succeeded completed = [] →
  visited st' = visited st ∧ results st' = results st ∧ to_crawl st' = [].
Proof.
  rewrite run_wave_failures. intros H Hnone. rewrite Hnone in H.
  simpl in H. by injection H as <-.
Qed.

Lemma futures_not_visited st u :
  u ∈ futures st → (u ∉ visited st) ∧ (u ∈ to_crawl st).
Proof. unfold futures. by rewrite list_elem_of_filter. Qed.

Lemma futures_nil_of_terminal st : to_crawl st = [] → futures st = [].
Proof. unfold futures. by intros ->. Qed.

Lemma wave_step_visited st st' :
  wave_step render st st' → visited st ⊆ visited st'.
Proof.
  intros (_ & completed & _ & H). rewrite (run_wave_visited _ _ _ H).
  apply union_subseteq_l.
Qed.

Lemma waves_visited st st' :
  rtc (wave_step render) st st' → visited st ⊆ visited st'.
Proof.
  induction 1 as [|st st1 st' Hstep _ IH]; [done|].
  etrans; [by apply wave_step_visited | done].
Qed.

Lemma wave_step_visited_succeeded st st' :
  wave_step render st st' → visited_succeeded st → visited_succeeded st'.
Proof.
  intros (_ & completed & _ & H) Hst u. rewrite (run_wave_visited _ _ _ H).
  rewrite elem_of_union, elem_of_list_to_set, list_elem_of_filter.
  intros [?|[? _]]; [by apply Hst | done].
Qed.

Lemma reachable_visited_succeeded start_url st :
  reachable render start_url st → visited_succeeded st.
Proof.
  unfold reachable. intros H.
  assert (visited_succeeded (initial start_url)) as H0.
  { intros u Hu. by apply not_elem_of_empty in Hu. }
  revert H0. induction H as [|st st1 st' Hstep _ IH]; [done|].
  intros H0. apply IH. by eapply wave_step_visited_succeeded.
Qed.

(** *** The visited set *)

Lemma visited_not_dispatched st st' u :
  rtc (wave_step render) st st' → u ∈ visited st → u ∉ futures st'.
Proof.
  intros Hwaves Hu Hin. apply futures_not_visited in Hin as [Hnot _].
  apply Hnot. by apply (waves_visited _ _ Hwaves).
Qed.

Lemma process_future_visited st u :
  ∃ st', process_future render st u = Returned st' ∧ visited st ⊆ visited st'.
Proof.
  rewrite process_future_eq. eexists. split; [done|].
  destruct (fetch u); simpl; [apply union_subseteq_l | done].
Qed.

(** C3: [visited] only grows, under the handling of each completed future
    and so over any number of waves, and a URL that is in [visited] is not
    among the futures that any later wave submits. *)
Theorem visited_only_grows :
  (∀ st u, ∃ st',
     process_future render st u = Returned st' ∧ visited st ⊆ visited st') ∧
  (∀ st st', rtc (wave_step render) st st' →
     visited st ⊆ visited st' ∧ ∀ u, u ∈ visited st → u ∉ futures st').
Proof.
  split; [apply process_future_visited|].
  intros st st' Hwaves. split.
  - by apply waves_visited.
  - intros u. by apply visited_not_dispatched.
Qed.

(** C4: between two waves of a crawl, every URL in [visited] is one whose
    fetch returned; a URL whose fetch raises is not in [visited]. *)
Theorem failed_never_visited start_url st :
  reachable render start_url st →
  ∀ u, (u ∈ visited st → ∃ r, fetch u = Returned r) ∧
       (∀ e, fetch u = Raised e → u ∉ visited st).
Proof.
  intros Hreach u.
  pose proof (reachable_visited_succeeded _ _ Hreach u) as Hu. split.
  - intros Hin. by apply succeeded_returned, Hu.
  - intros e E Hin. destruct (fetch_raised _ _ E) as [Hfail _].
    apply Hfail, Hu, Hin.
Qed.

(** *** Where a record can be doubled *)

Lemma data_of_url u d : data_of u = Some d → url d = u.
Proof.
  unfold Wave.data_of, crawl_one_class.
  destruct (render u) as [p|?]; simpl; [|done]. by intros [= <-].
Qed.

Lemma results_urls (completed : list string) :
  url <$> omap data_of completed = filter succeeded completed.
Proof.
  induction completed as [|u rest IH]; [done|].
  change (omap data_of (u :: rest))
    with (match data_of u with
          | Some d => d :: omap data_of rest
          | None => omap data_of rest
          end).
  destruct (fetch u) as [r|e] eqn:E.
  - destruct (fetch_returned _ _ E) as (Hs & Hd & _).
    rewrite Hd, filter_cons_True, fmap_cons by done.
    by rewrite IH, (data_of_url _ _ Hd).
  - destruct (fetch_raised _ _ E) as (Hs & Hd & _).
    by rewrite Hd, filter_cons_False.
Qed.

(** As long as no wave lists a URL twice, every URL is recorded once: a
    record can only be doubled by a wave that holds its URL twice. *)
Lemma wave_step_results_match st st' :
  wave_step render st st' → NoDup (futures st) →
  results_match_visited st → results_match_visited st'.
Proof.
  intros (_ & completed & Hperm & H) Hnodup [Hres Hsame].
  unfold results_match_visited.
  rewrite (run_wave_results _ _ _ H), (run_wave_visited _ _ _ H).
  rewrite fmap_app, results_urls. split.
  - apply NoDup_app. split; [done|]. split.
    + intros u Hu [_ Hin]%list_elem_of_filter. rewrite Hperm in Hin.
      apply futures_not_visited in Hin as [Hnew _]. by apply Hnew, Hsame.
    + apply NoDup_filter. by rewrite Hperm.
  - intros u. rewrite elem_of_app, elem_of_union, elem_of_list_to_set.
    by rewrite Hsame.
Qed.

(** *** Exceptions stay inside the wave *)

Lemma crawl_loop_never_raises as_completed k fuel st e :
  crawl_loop render as_completed k fuel st ≠ Some (Raised e).
Proof.
  revert k st. induction fuel as [|fuel IH]; intros k st; simpl; [done|].
  destruct (to_crawl st); [done|].
  destruct (run_wave_total (as_completed k (futures st)) st) as [st' ->].
  apply IH.
Qed.

(** C5: a fetch that raises is absorbed by the handler of its own future
    (the state is the one before it); a wave always ends in a state, the
    one the wave without the failing futures ends in; and the crawl never
    ends with an exception. *)
Theorem failure_stays_in_wave :
  (∀ st u e, fetch u = Raised e → process_future render st u = Returned st) ∧
  (∀ completed st, ∃ st',
     run_wave render completed st = Returned st' ∧
     run_wave render (filter succeeded completed) st = Returned st' ∧
     results st' = results st ++ omap data_of completed) ∧
  (∀ as_completed fuel start_url,
     crawl_all_classes render as_completed fuel start_url = None ∨
     ∃ rs, crawl_all_classes render as_completed fuel start_url = Some (Returned rs)).
Proof.
  split; [|split].
  - intros st u e E. by rewrite process_future_eq, E.
  - intros completed st.
    destruct (run_wave_total completed st) as [st' H]. exists st'.
    split; [done|]. split.
    + by rewrite <- run_wave_failures.
    + by apply run_wave_results.
  - intros as_completed fuel start_url. unfold crawl_all_classes.
    destruct (crawl_loop render as_completed 0 fuel (initial start_url))
      as [[rs|e]|] eqn:E; [eauto | | eauto].
    by apply crawl_loop_never_raises in E.
Qed.

End wave.

(** *** The loop *)

Section loop.
Variable render : string → result page.
Variable as_completed : nat → list string → list string.
Hypothesis as_completed_order : completion_order as_completed.
#[local] Abbreviation fetch := (crawl_one_class render).
#[local] Abbreviation succeeded := (succeeded render).
#[local] Abbreviation children_of := (children_of render).
#[local] Abbreviation crawl_loop := (crawl_loop render as_completed).
#[local] Abbreviation submitted := (submitted render as_completed).

Lemma completed_elem k st u : u ∈ as_completed k (futures st) ↔ u ∈ futures st.
Proof. by rewrite (as_completed_order k (futures st)). Qed.

Lemma loop_wave_step k st st' :
  to_crawl st ≠ [] →
  run_wave render (as_completed k (futures st)) st = Returned st' →
  wave_step render st st'.
Proof.
  intros Hne H. split; [done|]. exists (as_completed k (futures st)).
  split; [apply as_completed_order | done].
Qed.

Lemma crawl_loop_terminal k fuel st :
  terminal st → crawl_loop k (S fuel) st = Some (Returned (results st)).
Proof. unfold terminal. simpl. by intros ->. Qed.

Lemma crawl_loop_continue k fuel st :
  ¬ terminal st →
  ∃ st', wave_step render st st' ∧
         crawl_loop k (S fuel) st = crawl_loop (S k) fuel st'.
Proof.
  unfold terminal. intros Hne.
  destruct (run_wave_total render (as_completed k (futures st)) st) as [st' H].
  exists st'. split; [by eapply loop_wave_step|].
  simpl. rewrite H. by destruct (to_crawl st).
Qed.

Lemma terminal_iff_no_wave st :
  terminal st ↔ ¬ ∃ st', wave_step render st st'.
Proof.
  split.
  - intros Hterm (st' & Hne & _). by apply Hne.
  - intros Hno. destruct (decide (to_crawl st = [])) as [|Hne]; [done|].
    destruct Hno.
    destruct (run_wave_total render (futures st) st) as [st' H].
    exists st'. split; [done|]. by exists (futures st).
Qed.

(** What the loop returns is the [results] of a state it reached, and that
    state has nothing left to crawl. *)
Lemma crawl_loop_reachable fuel k st rs :
  crawl_loop k fuel st = Some (Returned rs) →
  ∃ st', rtc (wave_step render) st st' ∧ terminal st' ∧ rs = results st'.
Proof.
  revert k st. induction fuel as [|fuel IH]; intros k st; [done|].
  destruct (decide (terminal st)) as [Hterm|Hne].
  - rewrite crawl_loop_terminal by done. intros [= <-]. by exists st.
  - destruct (crawl_loop_continue k fuel st Hne) as (st1 & Hstep & ->).
    intros Hrest. destruct (IH _ _ Hrest) as (st' & ? & ? & ?).
    exists st'. split; [by eapply rtc_l | done].
Qed.

(** When no future is left to submit the loop is over after at most one
    more, empty, wave. *)
Lemma crawl_loop_no_futures k fuel st :
  futures st = [] →
  crawl_loop k (S (S fuel)) st = Some (Returned (results st)).
Proof.
  intros Hnone. destruct (decide (terminal st)) as [Hterm|Hne].
  - by apply crawl_loop_terminal.
  - destruct (crawl_loop_continue k (S fuel) st Hne)
      as (st1 & (_ & completed & Hperm & H) & ->).
    rewrite Hnone in Hperm. apply Permutation_nil_r in Hperm. subst completed.
    injection H as <-. reflexivity.
Qed.

Lemma crawl_loop_fuel k fuel fuel' st r :
  crawl_loop k fuel st = Some r → fuel ≤ fuel' → crawl_loop k fuel' st = Some r.
Proof.
  revert k fuel' st. induction fuel as [|fuel IH]; intros k fuel' st; [done|].
  intros H Hle. destruct fuel' as [|fuel']; [lia|].
  simpl in *. destruct (to_crawl st); [done|].
  destruct (run_wave render _ st); [|done]. apply IH; [done | lia].
Qed.

(** C6: a URL [X] whose fetch raises in a wave and that a URL [S] of the
    same wave lists as a child is among the futures submitted by the next
    wave, whichever of the two completes first. *)
Theorem failed_url_retried k fuel st X S e :
  X ∈ futures st → fetch X = Raised e →
  S ∈ futures st → X ∈ children_of S →
  ∃ next rest,
    submitted k (2 + fuel) st = futures st :: next :: rest ∧ X ∈ next.
Proof.
  intros HX E HS Hchild.
  destruct (futures_not_visited _ _ HX) as [HXnew HXin].
  destruct (fetch_raised _ _ _ E) as (HXfail & _).
  destruct (run_wave_total render (as_completed k (futures st)) st) as [st' H].
  assert (X ∈ futures st') as HX'.
  { rewrite (run_wave_futures _ _ _ _ H). apply list_elem_of_filter. split.
    - rewrite (run_wave_visited _ _ _ _ H).
      rewrite elem_of_union, elem_of_list_to_set, list_elem_of_filter. tauto.
    - apply list_elem_of_bind. exists S. by rewrite completed_elem. }
  destruct (futures_not_visited _ _ HX') as [_ HXin'].
  simpl. destruct (to_crawl st) as [|? ?] eqn:Est.
  { by apply elem_of_nil in HXin. }
  rewrite H. destruct (to_crawl st') as [|? ?] eqn:Est'.
  { by apply elem_of_nil in HXin'. }
  eauto.
Qed.

(** *** Termination on a finite graph *)

Lemma wave_stays_in_graph (U : gset string) completed st st' :
  closed render U →
  visited st ⊆ U → (∀ x, x ∈ to_crawl st → x ∈ U) →
  completed ≡ₚ futures st →
  run_wave render completed st = Returned st' →
  visited st' ⊆ U ∧ (∀ x, x ∈ to_crawl st' → x ∈ U).
Proof.
  intros Hclosed Hvis Hto Hperm H.
  assert (∀ u, u ∈ completed → u ∈ U) as Hcompleted.
  { intros u. rewrite Hperm. intros Hu. by apply Hto, futures_not_visited. }
  split.
  - rewrite (run_wave_visited _ _ _ _ H). intros u.
    rewrite elem_of_union, elem_of_list_to_set, list_elem_of_filter.
    intros [?|[_ ?]]; [by apply Hvis | by apply Hcompleted].
  - intros x Hx.
    destruct (run_wave_to_crawl_elem _ _ _ _ _ H Hx) as (u & Hu & _ & Hchild).
    eapply Hclosed; [by apply Hcompleted | done].
Qed.

(** A wave in which some fetch returns marks a URL that was not marked. *)
Lemma wave_marks_new completed st st' u :
  completed ≡ₚ futures st →
  run_wave render completed st = Returned st' →
  u ∈ filter succeeded completed →
  u ∈ visited st' ∧ u ∉ visited st.
Proof.
  intros Hperm H Hu. split.
  - rewrite (run_wave_visited _ _ _ _ H), elem_of_union, elem_of_list_to_set.
    by right.
  - apply list_elem_of_filter in Hu as [_ Hu]. rewrite Hperm in Hu.
    by apply futures_not_visited in Hu as [Hu _].
Qed.

Lemma crawl_loop_terminates (U : gset string) :
  closed render U →
  ∀ fuel k st,
    visited st ⊆ U → (∀ x, x ∈ to_crawl st → x ∈ U) →
    size (U ∖ visited st) + 2 ≤ fuel →
    ∃ rs, crawl_loop k fuel st = Some (Returned rs).
Proof.
  intros Hclosed. induction fuel as [|fuel IH]; intros k st Hvis Hto Hfuel; [lia|].
  destruct (decide (terminal st)) as [Hterm|Hne].
  { rewrite crawl_loop_terminal by done. eauto. }
  destruct (crawl_loop_continue k fuel st Hne)
    as (st' & (_ & completed & Hperm & H) & ->).
  destruct (filter succeeded completed) as [|u ok] eqn:Eok.
  - destruct (run_wave_no_success _ _ _ _ H Eok) as (_ & _ & Hnil).
    destruct fuel as [|fuel]; [lia|].
    rewrite crawl_loop_terminal by done. eauto.
  - destruct (wave_stays_in_graph U _ _ _ Hclosed Hvis Hto Hperm H) as [Hvis' Hto'].
    destruct (wave_marks_new completed st st' u Hperm H) as [Hu' Hu].
    { rewrite Eok. left. }
    apply IH; [done | done |].
    assert (U ∖ visited st' ⊂ U ∖ visited st) as Hless.
    { pose proof (run_wave_visited _ _ _ _ H) as Hv. set_solver. }
    apply subset_size in Hless. lia.
Qed.

(** C7: the loop returns its results as soon as [to_crawl] is empty and
    runs another wave as long as it is not; and on a finite child graph the
    crawl returns, for every completion order: a bound on the number of
    waves is the number of URLs of the graph plus one. *)
Theorem crawl_terminates :
  (∀ st, terminal st ↔ ¬ ∃ st', wave_step render st st') ∧
  (∀ k fuel st, terminal st →
     crawl_loop k (S fuel) st = Some (Returned (results st))) ∧
  (∀ k fuel st, ¬ terminal st →
     ∃ st', wave_step render st st' ∧
            crawl_loop k (S fuel) st = crawl_loop (S k) fuel st') ∧
  (∀ (U : gset string) start_url,
     closed render U → start_url ∈ U →
     ∃ st, reachable render start_url st ∧ terminal st ∧
           crawl_all_classes render as_completed (size U + 2) start_url
           = Some (Returned (results st))).
Proof.
  split; [|split; [|split]].
  - apply terminal_iff_no_wave.
  - apply crawl_loop_terminal.
  - apply crawl_loop_continue.
  - intros U start_url Hclosed Hstart. unfold crawl_all_classes.
    destruct (crawl_loop_terminates U Hclosed (size U + 2) 0 (initial start_url))
      as [rs Hrs].
    + simpl. apply empty_subseteq.
    + simpl. intros x ->%list_elem_of_singleton. done.
    + simpl. rewrite difference_empty_L. lia.
    + destruct (crawl_loop_reachable _ _ _ _ Hrs) as (st & ? & ? & ->).
      by exists st.
Qed.

End loop.

(** *** The completion order does not matter *)

Section determinism.
Variable render : string → result page.
#[local] Abbreviation succeeded := (succeeded render).
#[local] Abbreviation data_of := (data_of render).
#[local] Abbreviation children_of := (children_of render).

#[local] Instance same_up_to_order_sym : Symmetric same_up_to_order.
Proof. intros st1 st2 (? & ? & ?). by split; [|split]. Qed.

Lemma same_initial start_url :
  same_up_to_order (initial start_url) (initial start_url).
Proof. by split; [|split]. Qed.

Lemma same_wave st1 st2 c1 c2 st1' st2' :
  same_up_to_order st1 st2 →
  c1 ≡ₚ futures st1 → c2 ≡ₚ futures st2 →
  run_wave render c1 st1 = Returned st1' →
  run_wave render c2 st2 = Returned st2' →
  same_up_to_order st1' st2'.
Proof.
  intros (Hvis & Hres & Hfut) Hc1 Hc2 H1 H2.
  assert (c1 ≡ₚ c2) as Hc by (by rewrite Hc1, Hc2).
  assert (visited st1' = visited st2') as Hvis'.
  { rewrite (run_wave_visited _ _ _ _ H1), (run_wave_visited _ _ _ _ H2).
    by rewrite Hvis, Hc. }
  split; [done|]. split.
  - rewrite (run_wave_results _ _ _ _ H1), (run_wave_results _ _ _ _ H2).
    by rewrite Hres, Hc.
  - rewrite (run_wave_futures _ _ _ _ H1), (run_wave_futures _ _ _ _ H2).
    by rewrite Hvis', Hc.
Qed.

Lemma same_no_futures st1 st2 :
  same_up_to_order st1 st2 → futures st1 = [] → futures st2 = [].
Proof.
  intros (_ & _ & Hfut) Hnone. rewrite Hnone in Hfut.
  by apply Permutation_nil_l in Hfut.
Qed.

Lemma crawl_loop_same oc1 oc2 :
  completion_order oc1 → completion_order oc2 →
  ∀ fuel k1 k2 st1 st2 rs1,
    same_up_to_order st1 st2 →
    crawl_loop render oc1 k1 fuel st1 = Some (Returned rs1) →
    ∃ rs2, crawl_loop render oc2 k2 (S fuel) st2 = Some (Returned rs2) ∧
           rs1 ≡ₚ rs2.
Proof.
  intros Hoc1 Hoc2.
  induction fuel as [|fuel IH]; intros k1 k2 st1 st2 rs1 Hsame H1; [done|].
  pose proof Hsame as (_ & Hres & _).
  destruct (decide (terminal st1)) as [Hterm1|Hne1].
  { rewrite crawl_loop_terminal in H1 by done. injection H1 as <-.
    exists (results st2). split; [|done].
    apply crawl_loop_no_futures; [done|].
    by eapply same_no_futures, futures_nil_of_terminal. }
  destruct (decide (terminal st2)) as [Hterm2|Hne2].
  { exists (results st2). split; [by apply crawl_loop_terminal|].
    assert (futures st1 = []) as Hnone.
    { symmetry in Hsame. by eapply same_no_futures, futures_nil_of_terminal. }
    apply (crawl_loop_fuel _ _ _ _ (S (S fuel))) in H1; [|lia].
    rewrite crawl_loop_no_futures in H1 by done. by injection H1 as <-. }
  destruct (crawl_loop_continue render oc1 Hoc1 k1 fuel st1 Hne1)
    as (st1' & (_ & c1 & Hc1 & Hw1) & E1).
  destruct (crawl_loop_continue render oc2 Hoc2 k2 (S fuel) st2 Hne2)
    as (st2' & (_ & c2 & Hc2 & Hw2) & E2).
  rewrite E1 in H1. rewrite E2.
  eapply IH; [|done]. by eapply same_wave.
Qed.

(** C8: with the same pages behind every URL, two crawls from the same
    start URL whose futures complete in different orders return the same
    records, each as many times: when one returns, so does the other, and
    the two result lists are permutations of each other. *)
Theorem crawl_deterministic oc1 oc2 fuel start_url rs1 :
  completion_order oc1 → completion_order oc2 →
  crawl_all_classes render oc1 fuel start_url = Some (Returned rs1) →
  ∃ rs2,
    crawl_all_classes render oc2 (S fuel) start_url = Some (Returned rs2) ∧
    rs1 ≡ₚ rs2.
Proof.
  intros Hoc1 Hoc2. unfold crawl_all_classes.
  apply crawl_loop_same; [done | done |]. apply same_initial.
Qed.

End determinism.

End MainFacts.

(** ** Properties of the recursive crawl *)

Module DataFacts.
Import Data.

Lemma group_property_nonempty by_category p : group_property by_category p ≠ ∅.
Proof.
  unfold group_property.
  set (category := if decide (default "Attributes" (propertySet p) = "")
                   then "Attributes" else default "Attributes" (propertySet p)).
  intros Hempty.
  apply (f_equal (λ m : gmap string (list property), m !! category)) in Hempty.
  rewrite lookup_empty, lookup_alter_eq in Hempty.
  destruct (by_category !! category) as [l|] eqn:E.
  - by rewrite E in Hempty.
  - by rewrite lookup_insert_eq in Hempty.
Qed.

Lemma foldl_group_property_nonempty properties_data by_category :
  by_category ≠ ∅ ∨ properties_data ≠ [] →
  foldl group_property by_category properties_data ≠ ∅.
Proof.
  revert by_category.
  induction properties_data as [|p rest IH]; intros by_category H; simpl.
  - by destruct H.
  - apply IH. left. apply group_property_nonempty.
Qed.

Lemma properties_by_category_nonempty properties_data :
  properties_by_category properties_data ≠ ∅.
Proof.
  unfold properties_by_category. case_decide; [|done].
  apply insert_non_empty.
Qed.

Lemma properties_by_category_nil :
  properties_by_category [] = {["Attributes" := [placeholder]]}.
Proof. reflexivity. Qed.

Lemma properties_by_category_cons p rest :
  properties_by_category (p :: rest) = foldl group_property ∅ (p :: rest).
Proof.
  unfold properties_by_category. case_decide as H; [|done].
  by apply foldl_group_property_nonempty in H; [|right].
Qed.

Lemma for_each_child_invariant (P : state → Prop) f :
  (∀ c st st' oc, P st → f c st = (st', oc) → P st') →
  ∀ children st st' oc,
    P st → for_each_child f children st = (st', oc) → P st'.
Proof.
  intros Hf. induction children as [|c rest IH]; intros st st' oc HP; simpl.
  - by intros [= <- _].
  - destruct (f c st) as [st1 oc1] eqn:E. pose proof (Hf _ _ _ _ HP E) as HP1.
    destruct oc1; [by apply IH | by intros [= <- _] | by intros [= <- _]].
Qed.

Section fetch.
Variable get_class : string → result class_json.
Variable get_properties : string → result (list property_json).
Variable get_relations : string → result relations_json.
Variable urlparse_path : string → string.
#[local] Abbreviation build_obj :=
  (build_obj get_class get_properties get_relations urlparse_path).
#[local] Abbreviation fetch_class :=
  (fetch_class get_class get_properties get_relations urlparse_path).
#[local] Abbreviation fetch_ifc_data :=
  (fetch_ifc_data get_class get_properties get_relations urlparse_path).
#[local] Abbreviation grouped := (grouped_properties get_properties).

Lemma build_obj_properties class_code o children :
  build_obj class_code = Returned (o, children) → grouped o.
Proof.
  unfold Data.build_obj.
  destruct (get_class class_code) as [class_data|?]; [|done].
  destruct (get_properties class_code) as [properties_data|?] eqn:E; [|done].
  destruct (get_relations class_code) as [relations_data|?]; [|done].
  simpl. intros [= <- _]. simpl. split.
  - apply properties_by_category_nonempty.
  - by exists class_code, properties_data.
Qed.

Lemma except_RequestException_state st e st' oc :
  except_RequestException st e = (st', oc) → st' = st.
Proof.
  unfold except_RequestException.
  by destruct (isinstance_RequestException e); intros [= <- _].
Qed.

Lemma fetch_class_output fuel :
  ∀ class_code st st' oc,
    Forall grouped (output st) →
    fetch_class fuel class_code st = (st', oc) →
    Forall grouped (output st').
Proof.
  induction fuel as [|fuel IH]; intros class_code st st' oc Hst; simpl.
  { by intros [= <- _]. }
  case_decide; [by intros [= <- _]|].
  destruct (build_obj class_code) as [[o children]|e] eqn:E.
  - set (st1 := {| visited := visited st ∪ {[class_code]};
                   output := output st ++ [o] |}).
    assert (Forall grouped (output st1)) as Hst1.
    { apply Forall_app. split; [done|]. apply Forall_singleton.
      by eapply build_obj_properties. }
    destruct (for_each_child (fetch_class fuel) children st1) as [st2 oc2] eqn:E2.
    assert (Forall grouped (output st2)) as Hst2.
    { by apply (for_each_child_invariant (λ s, Forall grouped (output s))
                  (fetch_class fuel) IH children st1 st2 oc2). }
    destruct oc2; [by intros [= <- _] | | by intros [= <- _]].
    intros Hend. by rewrite (except_RequestException_state _ _ _ _ Hend).
  - intros Hend. by rewrite (except_RequestException_state _ _ _ _ Hend).
Qed.

(** [visited] of [data.py] only grows, and a class in it is skipped. *)
Lemma fetch_class_visited fuel :
  ∀ class_code st st' oc,
    fetch_class fuel class_code st = (st', oc) → visited st ⊆ visited st'.
Proof.
  induction fuel as [|fuel IH]; intros class_code st st' oc; simpl.
  { by intros [= <- _]. }
  case_decide; [by intros [= <- _]|].
  destruct (build_obj class_code) as [[o children]|e] eqn:E.
  - set (st1 := {| visited := visited st ∪ {[class_code]};
                   output := output st ++ [o] |}).
    destruct (for_each_child (fetch_class fuel) children st1) as [st2 oc2] eqn:E2.
    assert (visited st ⊆ visited st2) as Hst2.
    { apply (for_each_child_invariant (λ s, visited st ⊆ visited s)
               (fetch_class fuel)) in E2; [done | | apply union_subseteq_l].
      intros c s s' oc' Hs Hc. etrans; [exact Hs | by eapply IH]. }
    destruct oc2; [by intros [= <- _] | | by intros [= <- _]].
    intros Hend. by rewrite (except_RequestException_state _ _ _ _ Hend).
  - intros Hend. rewrite (except_RequestException_state _ _ _ _ Hend).
    apply union_subseteq_l.
Qed.

Lemma fetch_class_skips_visited fuel class_code st :
  class_code ∈ visited st → fetch_class (S fuel) class_code st = (st, Normal).
Proof. intros Hin. simpl. by rewrite decide_True. Qed.

(** Unlike the wave crawl, [data.py] marks a class before it fetches it: a
    class whose request fails stays in [visited] and is not fetched again. *)
Lemma fetch_class_marks_before_fetching fuel class_code st msg :
  class_code ∉ visited st →
  get_class class_code = Raised (RequestException msg) →
  fetch_class (S fuel) class_code st =
  ({| visited := visited st ∪ {[class_code]}; output := output st |}, Normal).
Proof.
  intros Hnew E. simpl. rewrite decide_False by done.
  unfold Data.build_obj. by rewrite E.
Qed.

(** [data.py] catches [requests.RequestException] only: any other
    exception ends the whole crawl. *)
Lemma fetch_ifc_data_propagates fuel start_class msg :
  get_class start_class = Raised (OtherException msg) →
  fetch_ifc_data (S fuel) start_class = Some (Raised (OtherException msg)).
Proof.
  intros E. unfold Data.fetch_ifc_data. simpl.
  rewrite decide_False by apply not_elem_of_empty.
  unfold Data.build_obj. by rewrite E.
Qed.

(** *** Termination of the recursion on a finite graph *)

Lemma build_obj_children class_code o children :
  build_obj class_code = Returned (o, children) →
  ∃ class_data, get_class class_code = Returned class_data ∧
                children = ref_code <$> childClassReferences class_data.
Proof.
  unfold Data.build_obj.
  destruct (get_class class_code) as [class_data|?]; [|done].
  destruct (get_properties class_code); [|done].
  destruct (get_relations class_code); [|done].
  simpl. intros [= _ <-]. by exists class_data.
Qed.

Lemma except_RequestException_returns st e st' oc :
  except_RequestException st e = (st', oc) → oc ≠ OutOfFuel.
Proof.
  unfold except_RequestException.
  by destruct (isinstance_RequestException e); intros [= _ <-].
Qed.

Lemma for_each_child_returns (U V : gset string) f :
  (∀ c st st' oc, f c st = (st', oc) → visited st ⊆ visited st') →
  (∀ c st, c ∈ U → V ⊆ visited st → ∃ st' oc, f c st = (st', oc) ∧ oc ≠ OutOfFuel) →
  ∀ children st,
    (∀ c, c ∈ children → c ∈ U) → V ⊆ visited st →
    ∃ st' oc, for_each_child f children st = (st', oc) ∧ oc ≠ OutOfFuel.
Proof.
  intros Hgrow Hret. induction children as [|c rest IH]; intros st HU HV; simpl.
  - by exists st, Normal.
  - destruct (Hret c st) as (st1 & oc1 & E & Hoc1); [apply HU; left | done |].
    rewrite E. destruct oc1; [|by eauto|done].
    apply IH.
    + intros c' Hc'. apply HU. by right.
    + etrans; [exact HV | by eapply Hgrow].
Qed.

Lemma fetch_class_returns (U : gset string) :
  api_closed get_class U →
  ∀ fuel class_code st,
    class_code ∈ U → size (U ∖ visited st) + 1 ≤ fuel →
    ∃ st' oc, fetch_class fuel class_code st = (st', oc) ∧ oc ≠ OutOfFuel.
Proof.
  intros Hclosed. induction fuel as [|fuel IH]; intros class_code st HU Hfuel; [lia|].
  simpl. case_decide as Hvis; [by exists st, Normal|].
  destruct (build_obj class_code) as [[o children]|e] eqn:E.
  - destruct (build_obj_children _ _ _ E) as (class_data & Eclass & ->).
    set (st1 := {| visited := visited st ∪ {[class_code]};
                   output := output st ++ [o] |}).
    assert (size (U ∖ visited st1) < size (U ∖ visited st)) as Hless.
    { apply subset_size. simpl. set_solver. }
    destruct (for_each_child_returns U (visited st1) (fetch_class fuel)
                (fetch_class_visited fuel)) with
      (children := ref_code <$> childClassReferences class_data) (st := st1)
      as (st2 & oc2 & E2 & Hoc2).
    + intros c s Hc Hs. apply IH; [done|].
      assert (size (U ∖ visited s) ≤ size (U ∖ visited st1)); [|lia].
      apply subseteq_size. set_solver.
    + intros c (child & -> & Hchild)%list_elem_of_fmap. by eapply Hclosed.
    + done.
    + rewrite E2. destruct oc2; [by eauto | | done].
      destruct (except_RequestException st2 e) as [st3 oc3] eqn:E3.
      apply except_RequestException_returns in E3. eauto.
  - destruct (except_RequestException _ e) as [st3 oc3] eqn:E3.
    apply except_RequestException_returns in E3. eauto.
Qed.

(** On a finite graph of classes the recursion of [data.py] ends: as many
    nested calls as the graph has classes, plus one, are enough. *)
Lemma fetch_ifc_data_returns (U : gset string) start_class :
  api_closed get_class U → start_class ∈ U →
  ∃ r, fetch_ifc_data (size U + 1) start_class = Some r.
Proof.
  intros Hclosed HU. unfold Data.fetch_ifc_data.
  destruct (fetch_class_returns U Hclosed (size U + 1) start_class
              {| visited := ∅; output := [] |}) as (st & oc & -> & Hoc).
  - done.
  - simpl. rewrite difference_empty_L. lia.
  - destruct oc; [eauto | eauto | done].
Qed.

(** C10: every record that the crawl of [data.py] appends to [output] has a
    non-empty [properties] map, the grouped properties of a response; when
    the response holds no property the map is the single category
    "Attributes" with the one placeholder entry, and otherwise it is the
    grouping itself, without placeholder. *)
Theorem output_properties_nonempty :
  (∀ fuel start_class st oc,
     fetch_class fuel start_class {| visited := ∅; output := [] |} = (st, oc) →
     Forall grouped (output st)) ∧
  (∀ fuel start_class out,
     fetch_ifc_data fuel start_class = Some (Returned out) →
     Forall (λ o, properties o ≠ ∅) out) ∧
  properties_by_category [] = {["Attributes" := [placeholder]]} ∧
  placeholder = {| name := "Attributes"; data_type := "not in bSDD"; definition := "" |} ∧
  (∀ p rest,
     properties_by_category (p :: rest) = foldl group_property ∅ (p :: rest)).
Proof.
  split; [|split; [|split; [|split]]].
  - intros fuel start_class st oc H.
    by apply (fetch_class_output fuel start_class _ st oc) in H.
  - intros fuel start_class out. unfold Data.fetch_ifc_data.
    destruct (fetch_class fuel start_class _) as [st oc] eqn:E.
    apply (fetch_class_output fuel start_class _ st oc) in E; [|done].
    destruct oc; [|done|done]. intros [= <-].
    eapply Forall_impl; [exact E|]. by intros o [? _].
  - apply properties_by_category_nil.
  - reflexivity.
  - apply properties_by_category_cons.
Qed.

End fetch.

End DataFacts.

(** ** The crawl on the two class graphs *)

Module Cases.
Import Main Wave MainFacts Scenario.

Lemma in_submission_order_ok : completion_order in_submission_order.
Proof. intros k fs. reflexivity. Qed.

Lemma last_submitted_first_ok : completion_order last_submitted_first.
Proof. intros k fs. apply reverse_Permutation. Qed.

Lemma cycle_in_submission_order :
  crawl_all_classes cycle_site in_submission_order 4 "Root"
  = Some (Returned cycle_records).
Proof. vm_compute. reflexivity. Qed.

Lemma cycle_api_crawl :
  ∃ out, api_crawl cycle_children 5 "Root" = Some (Returned out) ∧
         Data.code <$> out = ["Root"; "A"; "C"; "B"].
Proof. eexists. split; vm_compute; reflexivity. Qed.

Lemma cycle_records_NoDup : NoDup (url <$> cycle_records).
Proof.
  apply (bool_decide_unpack _). vm_compute. exact I.
Qed.

(** C9: on the graph Root -> A, B; A -> C; B -> nothing; C -> Root, with
    every page loading, the wave crawl returns for every completion order,
    and its results are the records of Root, A, B and C, each once; the
    recursive crawl of the API returns the same four classes, each once. *)
Theorem cycle_crawl as_completed :
  completion_order as_completed →
  (∃ rs, crawl_all_classes cycle_site as_completed 5 "Root" = Some (Returned rs) ∧
         rs ≡ₚ cycle_records ∧ NoDup (url <$> rs)) ∧
  (∃ out, api_crawl cycle_children 5 "Root" = Some (Returned out) ∧
          Data.code <$> out = ["Root"; "A"; "C"; "B"]).
Proof.
  intros Horder. split; [|apply cycle_api_crawl].
  destruct (crawl_loop_same cycle_site in_submission_order as_completed
              in_submission_order_ok Horder 4 0 0
              (initial "Root") (initial "Root") cycle_records)
    as (rs & Hrs & Hperm).
  - apply same_initial.
  - apply cycle_in_submission_order.
  - exists rs. split; [done|]. split; [done|].
    rewrite <- Hperm. apply cycle_records_NoDup.
Qed.

Lemma cycle_crawl_witness :
  (∃ rs, crawl_all_classes cycle_site last_submitted_first 5 "Root"
         = Some (Returned rs) ∧
         rs ≡ₚ cycle_records ∧ NoDup (url <$> rs)) ∧
  (∃ out, api_crawl cycle_children 5 "Root" = Some (Returned out) ∧
          Data.code <$> out = ["Root"; "A"; "C"; "B"]).
Proof. apply (cycle_crawl last_submitted_first). apply last_submitted_first_ok. Defined.

(** C1 (the code departs from it): on the graph Root -> A, B; A -> Z;
    B -> Z, the third wave holds Z twice, both futures return, and the
    record of Z is appended to [results] twice. *)
Theorem diamond_child_recorded_twice :
  crawl_all_classes diamond_site in_submission_order 4 "Root"
  = Some (Returned diamond_records) ∧
  url <$> diamond_records = ["Root"; "A"; "B"; "Z"; "Z"] ∧
  ¬ NoDup (url <$> diamond_records).
Proof.
  split; [vm_compute; reflexivity|]. split; [reflexivity|].
  apply (bool_decide_unpack _). vm_compute. exact I.
Qed.

(** C2 (the code departs from it): on the same graph the executor is handed
    Z twice in the third wave; a wave that lists a URL twice submits it
    twice. *)
Theorem diamond_child_submitted_twice :
  submitted diamond_site in_submission_order 0 4 (initial "Root")
  = [["Root"]; ["A"; "B"]; ["Z"; "Z"]] ∧
  futures {| visited := ∅; results := []; to_crawl := ["Z"; "Z"] |} = ["Z"; "Z"].
Proof. split; vm_compute; reflexivity. Qed.

(** The recursive crawl of [data.py] fetches Z once on that graph. *)
Lemma diamond_api_crawl :
  ∃ out, api_crawl diamond_children 5 "Root" = Some (Returned out) ∧
         Data.code <$> out = ["Root"; "A"; "Z"; "B"].
Proof. eexists. split; vm_compute; reflexivity. Qed.

(** *** The general statements at work *)

Lemma wave_in_submission_order render st st' :
  to_crawl st ≠ [] →
  run_wave render (futures st) st = Returned st' →
  wave_step render st st'.
Proof. intros Hne H. split; [done|]. by exists (futures st). Qed.

Ltac one_wave :=
  eapply rtc_l;
  [ apply wave_in_submission_order; [vm_compute; discriminate | reflexivity] | ].

Lemma cycle_waves :
  rtc (wave_step cycle_site)
    (after_waves cycle_site 1 (initial "Root"))
    (after_waves cycle_site 3 (initial "Root")).
Proof. do 2 one_wave. vm_compute. apply rtc_refl. Qed.

Lemma visited_only_grows_witness :
  visited (after_waves cycle_site 1 (initial "Root"))
    ⊆ visited (after_waves cycle_site 3 (initial "Root")) ∧
  ∀ u, u ∈ visited (after_waves cycle_site 1 (initial "Root")) →
       u ∉ futures (after_waves cycle_site 3 (initial "Root")).
Proof. apply (proj2 (visited_only_grows cycle_site)). apply cycle_waves. Defined.

Lemma retry_reachable :
  reachable retry_site "P" (after_waves retry_site 2 (initial "P")).
Proof. unfold reachable. do 2 one_wave. vm_compute. apply rtc_refl. Qed.

Lemma failed_never_visited_witness :
  ("X" ∈ visited (after_waves retry_site 2 (initial "P")) →
   ∃ r, crawl_one_class retry_site "X" = Returned r) ∧
  (∀ e, crawl_one_class retry_site "X" = Raised e →
        "X" ∉ visited (after_waves retry_site 2 (initial "P"))).
Proof. apply (failed_never_visited retry_site "P"). apply retry_reachable. Defined.

Lemma failed_url_retried_witness :
  ∃ next rest,
    submitted retry_site in_submission_order 1 2
      (after_waves retry_site 1 (initial "P"))
    = futures (after_waves retry_site 1 (initial "P")) :: next :: rest ∧
    "X" ∈ next.
Proof.
  apply (failed_url_retried retry_site in_submission_order
           in_submission_order_ok 1 0 _ "X" "S" (OtherException "no such page")).
  - vm_compute. left.
  - reflexivity.
  - vm_compute. right. left.
  - vm_compute. left.
Defined.

Lemma cycle_closed : closed cycle_site cycle_urls.
Proof.
  intros u c Hu. unfold cycle_urls in *.
  rewrite !elem_of_union, !elem_of_singleton in Hu.
  destruct Hu as [[[->| ->]| ->]| ->]; vm_compute; set_solver.
Qed.

Lemma crawl_terminates_witness :
  ∃ st, reachable cycle_site "Root" st ∧ terminal st ∧
        crawl_all_classes cycle_site in_submission_order (size cycle_urls + 2) "Root"
        = Some (Returned (results st)).
Proof.
  apply (crawl_terminates cycle_site in_submission_order in_submission_order_ok).
  - apply cycle_closed.
  - unfold cycle_urls. set_solver.
Defined.

Lemma crawl_deterministic_witness :
  ∃ rs2,
    crawl_all_classes cycle_site last_submitted_first 5 "Root"
    = Some (Returned rs2) ∧
    cycle_records ≡ₚ rs2.
Proof.
  apply (crawl_deterministic cycle_site in_submission_order last_submitted_first
           4 "Root" cycle_records).
  - apply in_submission_order_ok.
  - apply last_submitted_first_ok.
  - apply cycle_in_submission_order.
Defined.

End Cases.

(** ** More on the wave-based crawl *)

Module MainMore.
Import Main Wave Graph MainFacts.

Lemma absolute_not_relative u : String.prefix "/" (absolute u) = false.
Proof.
  unfold absolute. destruct (String.prefix "/" u) eqn:E; [reflexivity | done].
Qed.

Lemma absolute_unchanged u : String.prefix "/" u = false → absolute u = u.
Proof. unfold absolute. by intros ->. Qed.

Section pages.
Variable render : string → result page.
#[local] Abbreviation fetch := (crawl_one_class render).
#[local] Abbreviation succeeded := (succeeded render).
#[local] Abbreviation data_of := (Wave.data_of render).
#[local] Abbreviation children_of := (children_of render).
#[local] Abbreviation link := (link render).
#[local] Abbreviation discoverable := (discoverable render).
#[local] Abbreviation nothing_forgotten := (nothing_forgotten render).
#[local] Abbreviation nothing_invented := (nothing_invented render).

(** X1: the record of [crawl_one_class] carries the URL it was asked for,
    and its child URLs are the child references of the page, one for one,
    none of them relative: a reference that starts with a slash has got
    the site in front, any other is handed on as it is. *)
Theorem crawl_one_class_urls u d cs :
  fetch u = Returned (d, cs) →
  url d = u ∧
  length cs = length (child_classes d) ∧
  Forall (λ c, String.prefix "/" c = false) cs ∧
  (∀ i c, child_classes d !! i = Some c →
     cs !! i = Some (if String.prefix "/" c then SITE +:+ c else c)).
Proof.
  unfold crawl_one_class. destruct (render u) as [p|e]; [|done].
  simpl. intros [= <- <-]. simpl. split; [done|]. split.
  - by rewrite length_fmap.
  - split.
    + apply Forall_fmap, Forall_forall. intros c _. apply absolute_not_relative.
    + intros i c Hi. by rewrite list_lookup_fmap, Hi.
Qed.

(** *** What the results are *)

Lemma data_of_elem (completed : list string) d :
  d ∈ omap data_of completed → data_of (url d) = Some d.
Proof.
  intros (u & _ & Hd)%list_elem_of_omap.
  by rewrite (data_of_url _ _ _ Hd).
Qed.

Lemma wave_step_results_fetched st st' :
  wave_step render st st' →
  (∀ u, u ∈ url <$> results st ↔ u ∈ visited st) ∧
  (∀ d, d ∈ results st → data_of (url d) = Some d) →
  (∀ u, u ∈ url <$> results st' ↔ u ∈ visited st') ∧
  (∀ d, d ∈ results st' → data_of (url d) = Some d).
Proof.
  intros (_ & completed & _ & H) [Hsame Hdata].
  rewrite (run_wave_results _ _ _ _ H), (run_wave_visited _ _ _ _ H). split.
  - intros u. rewrite fmap_app, results_urls.
    rewrite elem_of_app, elem_of_union, elem_of_list_to_set. by rewrite Hsame.
  - intros d [?|?]%elem_of_app; [by apply Hdata | by eapply data_of_elem].
Qed.

Lemma reachable_results_fetched start_url st :
  reachable render start_url st →
  (∀ u, u ∈ url <$> results st ↔ u ∈ visited st) ∧
  (∀ d, d ∈ results st → data_of (url d) = Some d).
Proof.
  unfold reachable. intros H.
  assert ((∀ u, u ∈ url <$> results (initial start_url)
                ↔ u ∈ visited (initial start_url)) ∧
          (∀ d, d ∈ results (initial start_url) → data_of (url d) = Some d))
    as H0.
  { simpl. split; [|by intros d ?%elem_of_nil].
    intros u. split; [by intros ?%elem_of_nil | by intros ?%not_elem_of_empty]. }
  revert H0. induction H as [|st st1 st' Hstep _ IH]; [done|].
  intros H0. apply IH. by eapply wave_step_results_fetched.
Qed.

(** X2: between two waves, the URLs of the records in [results] are the
    URLs in [visited], and every record is the one fetched from its URL,
    also when the record of a URL is there more than once. *)
Theorem results_are_fetched_pages start_url st :
  reachable render start_url st →
  (∀ u, u ∈ url <$> results st ↔ u ∈ visited st) ∧
  (∀ d, d ∈ results st → data_of (url d) = Some d).
Proof. apply reachable_results_fetched. Qed.

(** *** Which pages are reached *)

Lemma wave_pending st st' completed x :
  completed ≡ₚ futures st →
  run_wave render completed st = Returned st' →
  x ∈ to_crawl st → succeeded x → x ∈ visited st'.
Proof.
  intros Hperm H Hx Hs. rewrite (run_wave_visited _ _ _ _ H).
  destruct (decide (x ∈ visited st)) as [?|Hnew]; [set_solver|].
  apply elem_of_union. right.
  rewrite elem_of_list_to_set, list_elem_of_filter. split; [done|].
  rewrite Hperm. unfold futures. by apply list_elem_of_filter.
Qed.

Lemma wave_step_nothing_forgotten start_url st st' :
  wave_step render st st' →
  nothing_forgotten start_url st → nothing_forgotten start_url st'.
Proof.
  intros (_ & completed & Hperm & H) [Hkids Hstart].
  pose proof (run_wave_visited _ _ _ _ H) as Hvis. split.
  - intros u c Hu Hc Hs.
    destruct (decide (c ∈ visited st')) as [?|Hnew]; [by left|]. right.
    rewrite Hvis in Hu. apply elem_of_union in Hu as [Hu|Hu].
    + destruct (Hkids u c Hu Hc Hs) as [?|Hwait]; [set_solver|].
      destruct Hnew. by eapply wave_pending.
    + apply elem_of_list_to_set, list_elem_of_filter in Hu as [_ Hu].
      assert (c ∈ filter (λ x, x ∉ visited st') (to_crawl st')) as Hin.
      { change (c ∈ futures st'). rewrite (run_wave_futures _ _ _ _ H).
        apply list_elem_of_filter. split; [done|].
        apply list_elem_of_bind. by exists u. }
      by apply list_elem_of_filter in Hin as [_ ?].
  - intros Hs. left. destruct (Hstart Hs) as [?|Hwait]; [set_solver|].
    by eapply wave_pending.
Qed.

Lemma wave_step_nothing_invented start_url st st' :
  wave_step render st st' →
  nothing_invented start_url st → nothing_invented start_url st'.
Proof.
  intros (_ & completed & Hperm & H) [Hvis Hwait].
  assert (∀ u, u ∈ completed → discoverable start_url u) as Hcompleted.
  { intros u. rewrite Hperm. intros Hu. by apply Hwait, futures_not_visited. }
  split.
  - intros u. rewrite (run_wave_visited _ _ _ _ H).
    rewrite elem_of_union, elem_of_list_to_set, list_elem_of_filter.
    intros [?|[_ ?]]; [by apply Hvis | by apply Hcompleted].
  - intros c Hc.
    destruct (run_wave_to_crawl_elem _ _ _ _ _ H Hc) as (u & Hu & Hs & Hchild).
    eapply rtc_r; [by apply Hcompleted | by split].
Qed.

Lemma reachable_nothing_lost start_url st :
  reachable render start_url st →
  nothing_forgotten start_url st ∧ nothing_invented start_url st.
Proof.
  unfold reachable. intros H.
  assert (nothing_forgotten start_url (initial start_url)
          ∧ nothing_invented start_url (initial start_url)) as H0.
  { split; split; simpl.
    - by intros u c ?%not_elem_of_empty.
    - intros _. right. by left.
    - by intros u ?%not_elem_of_empty.
    - intros u ->%list_elem_of_singleton. apply rtc_refl. }
  revert H0. induction H as [|st st1 st' Hstep _ IH]; [done|].
  intros [Hf Hi]. apply IH. split.
  - by eapply wave_step_nothing_forgotten.
  - by eapply wave_step_nothing_invented.
Qed.

Lemma terminal_visited_all start_url st u :
  nothing_forgotten start_url st → terminal st →
  discoverable start_url u → succeeded u → u ∈ visited st.
Proof.
  unfold terminal. intros [Hkids Hstart] Hterm Hreach. revert u Hreach.
  apply (rtc_ind_r (λ u, succeeded u → u ∈ visited st)).
  - intros Hs. destruct (Hstart Hs) as [?|Hwait]; [done|].
    rewrite Hterm in Hwait. by apply elem_of_nil in Hwait.
  - intros p u _ [Hsp Hchild] IH Hs.
    destruct (Hkids p u (IH Hsp) Hchild Hs) as [?|Hwait]; [done|].
    rewrite Hterm in Hwait. by apply elem_of_nil in Hwait.
Qed.

(** X3: when the crawl returns, it has a record for exactly the URLs that
    load and can be reached from the start URL through pages that load:
    none of them is missing, whichever order the futures completed in, and
    no other URL has a record. *)
Theorem crawl_result_exact as_completed fuel start_url rs :
  completion_order as_completed →
  crawl_all_classes render as_completed fuel start_url = Some (Returned rs) →
  ∀ u, u ∈ url <$> rs ↔ discoverable start_url u ∧ succeeded u.
Proof.
  intros Horder Hrs u. unfold crawl_all_classes in Hrs.
  destruct (crawl_loop_reachable render as_completed Horder _ _ _ _ Hrs)
    as (st & Hreach & Hterm & ->).
  destruct (reachable_results_fetched start_url st Hreach) as [Hsame _].
  destruct (reachable_nothing_lost start_url st Hreach) as [Hf [Hi _]].
  rewrite Hsame. split.
  - intros Hu. split; [by apply Hi|].
    by apply (reachable_visited_succeeded render start_url st).
  - intros [Hd Hs]. by eapply terminal_visited_all.
Qed.

(** *** What a wave queues *)

Lemma for_each_future_queued (V : gset string) completed st st' x :
  V ⊆ visited st →
  for_each_future render completed st = Returned st' →
  x ∈ to_crawl st' →
  x ∈ to_crawl st ∨
  ∃ u, u ∈ completed ∧ succeeded u ∧ x ∈ children_of u ∧ x ≠ u ∧ x ∉ V.
Proof.
  revert st. induction completed as [|u rest IH]; intros st HV.
  { simpl. intros [= <-]. auto. }
  simpl. rewrite process_future_eq. simpl.
  destruct (fetch u) as [[d cs]|e] eqn:E; intros Hrest Hx.
  - destruct (fetch_returned _ _ _ E) as (Hs & _ & Hc). simpl in Hc.
    assert (V ⊆ visited (on_success st u (d, cs))) as HV' by (simpl; set_solver).
    destruct (IH _ HV' Hrest Hx) as [Hin|(v & ? & ? & ? & ? & ?)].
    + simpl in Hin. apply elem_of_app in Hin as [?|Hin]; [by left|].
      apply list_elem_of_filter in Hin as [Hnew Hin]. right. exists u.
      split; [left|]. split; [done|]. split; [by rewrite Hc|].
      split; set_solver.
    + right. exists v. split; [by right | done].
  - destruct (IH _ HV Hrest Hx) as [?|(v & ? & ? & ? & ? & ?)]; [by left|].
    right. exists v. split; [by right | done].
Qed.

(** X16: the crawl is breadth first: what a wave leaves in [to_crawl] are
    children of pages that were fetched in that very wave and loaded, and
    among them no URL that was visited before the wave and no page's link
    to itself. *)
Theorem wave_queues_children st st' x :
  wave_step render st st' → x ∈ to_crawl st' →
  ∃ u, u ∈ futures st ∧ succeeded u ∧ x ∈ children_of u ∧
       x ≠ u ∧ x ∉ visited st.
Proof.
  intros (_ & completed & Hperm & H) Hx.
  assert (visited st ⊆ visited {| visited := visited st; results := results st;
                                    to_crawl := [] |}) as HV by done.
  destruct (for_each_future_queued (visited st) completed _ _ x HV H Hx)
    as [Hnil|(u & Hu & ?)].
  - simpl in Hnil. by apply elem_of_nil in Hnil.
  - exists u. by rewrite <- Hperm.
Qed.

(** *** One record for each URL *)

Lemma distinct_waves_results_match start_url st :
  rtc (distinct_wave render) (initial start_url) st → results_match_visited st.
Proof.
  intros H.
  assert (results_match_visited (initial start_url)) as H0.
  { split; simpl; [constructor|]. intros u.
    split; [by intros ?%elem_of_nil | by intros ?%not_elem_of_empty]. }
  revert H0. induction H as [|st st1 st' [Hstep Hdup] _ IH]; [done|].
  intros H0. apply IH. by eapply wave_step_results_match.
Qed.

(** X17: as long as no wave holds a URL twice, [results] holds no two
    records for the same URL: a record is doubled only by a wave that
    lists its URL more than once. *)
Theorem distinct_waves_distinct_records start_url st :
  rtc (distinct_wave render) (initial start_url) st →
  NoDup (url <$> results st).
Proof. intros H. by destruct (distinct_waves_results_match _ _ H). Qed.

(** X4: when the start page does not load, the crawl ends after the first
    wave with an empty result and no error. *)
Theorem start_page_fails as_completed fuel start_url e :
  completion_order as_completed →
  fetch start_url = Raised e →
  crawl_all_classes render as_completed (2 + fuel) start_url = Some (Returned []).
Proof.
  intros Horder E. unfold crawl_all_classes.
  assert (futures (initial start_url) = [start_url]) as Hfut.
  { unfold futures. simpl. rewrite filter_cons_True by apply not_elem_of_empty.
    done. }
  assert (as_completed 0 [start_url] = [start_url]) as Hone.
  { apply Permutation_singleton_r, Horder. }
  simpl. rewrite Hfut, Hone. unfold run_wave. simpl.
  rewrite process_future_eq, E. reflexivity.
Qed.

End pages.

End MainMore.

(** ** More on the recursive crawl *)

Module DataMore.
Import Data ApiGraph DataFacts.

(** *** Grouping the properties *)

Lemma group_property_eq by_category p :
  group_property by_category p =
  <[category_of p := default [] (by_category !! category_of p) ++ [entry_of p]]>
    by_category.
Proof.
  unfold group_property. fold (category_of p). fold (entry_of p).
  apply map_eq. intros k. destruct (decide (category_of p = k)) as [<-|Hne].
  - rewrite lookup_alter_eq, lookup_insert_eq.
    destruct (by_category !! category_of p) as [l|] eqn:E.
    + by rewrite E.
    + by rewrite lookup_insert_eq.
  - rewrite lookup_alter_ne, lookup_insert_ne by done.
    destruct (by_category !! category_of p); [done|].
    by rewrite lookup_insert_ne.
Qed.

Lemma foldl_group_property_lookup properties_data by_category k :
  foldl group_property by_category properties_data !! k =
  match by_category !! k,
        entry_of <$> filter (λ p, category_of p = k) properties_data with
  | Some l, new => Some (l ++ new)
  | None, [] => None
  | None, new => Some new
  end.
Proof.
  revert by_category.
  induction properties_data as [|p rest IH]; intros by_category.
  { simpl. destruct (by_category !! k); [by rewrite app_nil_r | done]. }
  change (foldl group_property by_category (p :: rest))
    with (foldl group_property (group_property by_category p) rest).
  rewrite IH, group_property_eq.
  destruct (decide (category_of p = k)) as [<-|Hne].
  - rewrite lookup_insert_eq, filter_cons_True, fmap_cons by done.
    destruct (by_category !! category_of p) as [l|]; simpl.
    + by rewrite <- app_assoc.
    + done.
  - by rewrite lookup_insert_ne, filter_cons_False.
Qed.

Lemma category_of_nonempty p : category_of p ≠ "".
Proof. unfold category_of. by case_decide. Qed.

Lemma grouped_lookup properties_data k :
  foldl group_property ∅ properties_data !! k =
  match filter (λ q, category_of q = k) properties_data with
  | [] => None
  | mine => Some (entry_of <$> mine)
  end.
Proof.
  rewrite foldl_group_property_lookup, lookup_empty.
  by destruct (filter (λ q, category_of q = k) properties_data).
Qed.

(** X5: grouping loses nothing, doubles nothing and keeps the order: under
    each category the stored list holds exactly the properties of the
    response that belong to it, in the order of the response, and a
    category no property belongs to is not a key. *)
Theorem properties_grouped_in_order p rest k :
  properties_by_category (p :: rest) !! k =
  match filter (λ q, category_of q = k) (p :: rest) with
  | [] => None
  | mine => Some (entry_of <$> mine)
  end.
Proof.
  unfold properties_by_category. case_decide as Hempty.
  - exfalso. revert Hempty. apply foldl_group_property_nonempty. by right.
  - apply grouped_lookup.
Qed.

(** X6: the empty string is never a category: a property whose
    [propertySet] is missing or empty is listed under "Attributes". *)
Theorem no_empty_category properties_data :
  properties_by_category properties_data !! "" = None ∧
  ∀ p, p ∈ properties_data →
       propertySet p = None ∨ propertySet p = Some "" →
       ∃ l, properties_by_category properties_data !! "Attributes" = Some l ∧
            entry_of p ∈ l.
Proof.
  destruct properties_data as [|q rest].
  { split; [done|]. by intros p ?%elem_of_nil. }
  rewrite properties_by_category_cons, !grouped_lookup.
  split.
  - destruct (filter (λ q0, category_of q0 = "") (q :: rest)) as [|x l] eqn:E; [done|].
    assert (x ∈ filter (λ q0, category_of q0 = "") (q :: rest)) as Hx
      by (rewrite E; left).
    apply list_elem_of_filter in Hx as [Hx _]. by apply category_of_nonempty in Hx.
  - intros p Hp Hset.
    assert (category_of p = "Attributes") as Hcat.
    { unfold category_of. by destruct Hset as [-> | ->]. }
    assert (p ∈ filter (λ q0, category_of q0 = "Attributes") (q :: rest)) as Hin
      by (by apply list_elem_of_filter).
    destruct (filter (λ q0, category_of q0 = "Attributes") (q :: rest)) as [|x l].
    { by apply elem_of_nil in Hin. }
    eexists. split; [done|]. by apply list_elem_of_fmap_2.
Qed.

(** *** Exceptions of the requests *)

Lemma for_each_child_stopped f children st st' oc :
  for_each_child f children st = (st', oc) → oc ≠ Normal →
  ∃ c s, c ∈ children ∧ f c s = (st', oc).
Proof.
  revert st. induction children as [|c rest IH]; intros st; simpl.
  { by intros [= _ <-]. }
  destruct (f c st) as [st1 oc1] eqn:E. intros H Hoc.
  destruct oc1.
  - destruct (IH _ H Hoc) as (c' & s & ? & ?). exists c', s. split; [by right | done].
  - injection H as <- <-. exists c, st. split; [left | done].
  - injection H as <- <-. exists c, st. split; [left | done].
Qed.

Lemma for_each_child_Normal f c rest st st' :
  for_each_child f (c :: rest) st = (st', Normal) →
  ∃ st1, f c st = (st1, Normal) ∧ for_each_child f rest st1 = (st', Normal).
Proof.
  simpl. destruct (f c st) as [st1 oc1]. destruct oc1; [eauto | done | done].
Qed.

Section api.
Variable get_class : string → result class_json.
Variable get_properties : string → result (list property_json).
Variable get_relations : string → result relations_json.
Variable urlparse_path : string → string.
#[local] Abbreviation build_obj :=
  (build_obj get_class get_properties get_relations urlparse_path).
#[local] Abbreviation fetch_class :=
  (fetch_class get_class get_properties get_relations urlparse_path).
#[local] Abbreviation fetch_ifc_data :=
  (fetch_ifc_data get_class get_properties get_relations urlparse_path).
#[local] Abbreviation obj_of :=
  (obj_of get_class get_properties get_relations urlparse_path).
#[local] Abbreviation kids :=
  (kids get_class get_properties get_relations urlparse_path).
#[local] Abbreviation api_link :=
  (api_link get_class get_properties get_relations urlparse_path).
#[local] Abbreviation api_discoverable :=
  (api_discoverable get_class get_properties get_relations urlparse_path).
#[local] Abbreviation raised_by_request :=
  (raised_by_request get_class get_properties get_relations).
#[local] Abbreviation only_request_errors :=
  (only_request_errors get_class get_properties get_relations).
#[local] Abbreviation explored :=
  (explored get_class get_properties get_relations urlparse_path).

Lemma build_obj_raised class_code e :
  build_obj class_code = Raised e → raised_by_request class_code e.
Proof.
  unfold Data.build_obj, ApiGraph.raised_by_request.
  destruct (get_class class_code) as [?|e1]; [|intros [= ->]; by left].
  destruct (get_properties class_code) as [?|e2]; [|intros [= ->]; right; by left].
  destruct (get_relations class_code) as [?|e3]; [done|].
  intros [= ->]. right. by right.
Qed.

Lemma except_RequestException_propagates st e st' e' :
  except_RequestException st e = (st', Propagates e') →
  e' = e ∧ isinstance_RequestException e = false.
Proof.
  unfold except_RequestException.
  destruct (isinstance_RequestException e); [done|]. by intros [= _ <-].
Qed.

Lemma fetch_class_propagates fuel :
  ∀ class_code st st' e,
    fetch_class fuel class_code st = (st', Propagates e) →
    isinstance_RequestException e = false ∧ ∃ c, raised_by_request c e.
Proof.
  induction fuel as [|fuel IH]; intros class_code st st' e; simpl; [done|].
  case_decide; [done|].
  destruct (build_obj class_code) as [[o children]|e0] eqn:E.
  - destruct (for_each_child (fetch_class fuel) children _) as [st2 oc2] eqn:E2.
    destruct oc2 as [|e2|]; [done| |done].
    intros [-> Hnot]%except_RequestException_propagates. split; [done|].
    destruct (for_each_child_stopped _ _ _ _ _ E2) as (c & s & _ & Hc); [done|].
    by destruct (IH _ _ _ _ Hc).
  - intros [-> Hnot]%except_RequestException_propagates. split; [done|].
    exists class_code. by apply build_obj_raised.
Qed.



(** *** What the recursion records *)

Lemma build_obj_returned class_code o children :
  build_obj class_code = Returned (o, children) →
  obj_of class_code = Some o ∧ kids class_code = children.
Proof. unfold ApiGraph.obj_of, ApiGraph.kids. by intros ->. Qed.

Lemma build_obj_failed class_code e :
  build_obj class_code = Raised e →
  obj_of class_code = None ∧ kids class_code = [].
Proof. unfold ApiGraph.obj_of, ApiGraph.kids. by intros ->. Qed.

Lemma explored_visited from st st' new :
  explored from st st' new → visited st ⊆ visited st'.
Proof. intros (_ & _ & -> & _). apply union_subseteq_l. Qed.

Lemma explored_nothing from st :
  (∀ c, c ∈ from → c ∈ visited st) → explored from st st [].
Proof.
  intros Hfrom.
  split; [constructor|]. split; [by intros u ?%elem_of_nil|].
  split; [simpl; set_solver|]. split; [by rewrite app_nil_r|].
  split; [done|].
  split; [by intros u ?%elem_of_nil | by intros u k ?%elem_of_nil].
Qed.

Lemma explored_nil st : explored [] st st [].
Proof. apply explored_nothing. by intros c ?%elem_of_nil. Qed.

(** A call, then the loop over the remaining children. *)
Lemma explored_cons c rest st st1 st' new1 new2 :
  explored [c] st st1 new1 → explored rest st1 st' new2 →
  explored (c :: rest) st st' (new1 ++ new2).
Proof.
  intros (Hdup1 & Hnew1 & Hvis1 & Hout1 & Hfrom1 & Hreach1 & Hkids1)
         (Hdup2 & Hnew2 & Hvis2 & Hout2 & Hfrom2 & Hreach2 & Hkids2).
  assert (visited st1 ⊆ visited st') as Hmono by (rewrite Hvis2; set_solver).
  split; [|split; [|split; [|split; [|split; [|split]]]]].
  - apply NoDup_app. split; [done|]. split; [|done].
    intros u Hu1 Hu2. apply (Hnew2 u Hu2). rewrite Hvis1. set_solver.
  - intros u [Hu|Hu]%elem_of_app; [by apply Hnew1|].
    intros Hin. apply (Hnew2 u Hu). rewrite Hvis1. set_solver.
  - rewrite Hvis2, Hvis1, list_to_set_app_L. set_solver.
  - by rewrite Hout2, Hout1, omap_app, app_assoc.
  - intros x [->|Hx]%elem_of_cons; [|by apply Hfrom2].
    apply Hmono, Hfrom1. left.
  - intros u [Hu|Hu]%elem_of_app.
    + destruct (Hreach1 u Hu) as (x & ->%list_elem_of_singleton & ?).
      exists c. split; [left | done].
    + destruct (Hreach2 u Hu) as (x & ? & ?). exists x. split; [by right | done].
  - intros u k [Hu|Hu]%elem_of_app Hk; [|by eapply Hkids2].
    apply Hmono. by eapply Hkids1.
Qed.

(** A class that is marked, recorded when its requests return, and whose
    children have been explored. *)
Lemma explored_class c st st' new :
  c ∉ visited st →
  explored (kids c)
    {| visited := visited st ∪ {[c]};
       output := output st ++ from_option (λ o, [o]) [] (obj_of c) |}
    st' new →
  explored [c] st st' (c :: new).
Proof.
  intros Hc (Hdup & Hnew & Hvis & Hout & Hfrom & Hreach & Hkids).
  simpl in *.
  split; [|split; [|split; [|split; [|split; [|split]]]]].
  - constructor; [|done]. intros Hin. apply (Hnew c Hin). set_solver.
  - intros u [->|Hu]%elem_of_cons; [done|].
    intros Hin. apply (Hnew u Hu). set_solver.
  - rewrite Hvis. simpl. set_solver.
  - rewrite Hout, <- app_assoc. simpl. by destruct (obj_of c).
  - intros x ->%list_elem_of_singleton. rewrite Hvis. set_solver.
  - intros u [->|Hu]%elem_of_cons.
    + exists c. split; [left | apply rtc_refl].
    + destruct (Hreach u Hu) as (k & Hk & ?). exists c. split; [left|].
      by eapply rtc_l.
  - intros u k [->|Hu]%elem_of_cons Hk; [by apply Hfrom | by eapply Hkids].
Qed.

Lemma fetch_class_explored fuel :
  ∀ class_code st st',
    fetch_class fuel class_code st = (st', Normal) →
    ∃ new, explored [class_code] st st' new.
Proof.
  induction fuel as [|fuel IH]; intros class_code st st'; simpl; [done|].
  case_decide as Hvis.
  { intros [= <-]. exists []. apply explored_nothing.
    by intros c ->%list_elem_of_singleton. }
  assert (∀ children s s',
            for_each_child (fetch_class fuel) children s = (s', Normal) →
            ∃ new, explored children s s' new) as Hloop.
  { induction children as [|c rest IHrest]; intros s s'.
    - simpl. intros [= <-]. exists []. apply explored_nil.
    - intros (s1 & Hc & Hrest)%for_each_child_Normal.
      destruct (IH _ _ _ Hc) as [new1 H1].
      destruct (IHrest _ _ Hrest) as [new2 H2].
      exists (new1 ++ new2). by eapply explored_cons. }
  destruct (build_obj class_code) as [[o children]|e] eqn:E.
  - destruct (build_obj_returned _ _ _ E) as [Ho Hk].
    destruct (for_each_child (fetch_class fuel) children _) as [st2 oc2] eqn:E2.
    destruct oc2 as [|e2|]; [| |done].
    + intros [= <-]. destruct (Hloop _ _ _ E2) as [new Hnew].
      exists (class_code :: new). apply explored_class; [done|].
      by rewrite Hk, Ho.
    + intros Hend.
      destruct (for_each_child_stopped _ _ _ _ _ E2) as (c & s & _ & Hc); [done|].
      destruct (fetch_class_propagates _ _ _ _ _ Hc) as [Hnot _].
      unfold except_RequestException in Hend. by rewrite Hnot in Hend.
  - destruct (build_obj_failed _ _ E) as [Ho Hk].
    unfold except_RequestException.
    destruct (isinstance_RequestException e); [|done].
    intros [= <-]. exists [class_code]. apply explored_class; [done|].
    rewrite Hk, Ho. simpl. rewrite app_nil_r. apply explored_nil.
Qed.

(** X9: when the recursive crawl returns, it has walked exactly the classes
    that can be reached from the start class through children of classes
    whose requests return, each once, and its output is the records of
    those among them whose requests return, in the order of the walk: no
    class has two records. *)
Theorem crawl_records_each_class_once fuel start_class out :
  fetch_ifc_data fuel start_class = Some (Returned out) →
  ∃ walk,
    NoDup walk ∧
    out = omap obj_of walk ∧
    ∀ u, u ∈ walk ↔ api_discoverable start_class u.
Proof.
  unfold Data.fetch_ifc_data.
  destruct (fetch_class fuel start_class _) as [st oc] eqn:E.
  destruct oc; [|done|done]. intros [= <-].
  destruct (fetch_class_explored _ _ _ _ E)
    as (walk & Hdup & _ & Hvis & Hout & Hfrom & Hreach & Hkids).
  simpl in *. rewrite union_empty_l_L in Hvis.
  assert (∀ u, u ∈ walk ↔ u ∈ visited st) as Hwalk.
  { intros u. by rewrite Hvis, elem_of_list_to_set. }
  exists walk. split; [done|]. split; [done|]. intros u. split.
  - intros Hu. by destruct (Hreach u Hu) as (c & ->%list_elem_of_singleton & ?).
  - intros Hd. apply Hwalk. revert u Hd.
    apply (rtc_ind_r (λ u, u ∈ visited st)).
    + apply Hfrom. left.
    + intros p u _ Hlink Hp. apply (Hkids p u); [by apply Hwalk | done].
Qed.

End api.

End DataMore.

(** ** The further statements at work *)

Module MoreCases.
Import Main Wave Graph MainFacts MainMore Scenario Cases.

Lemma crawl_one_class_urls_witness :
  url (record_of "Root" ["/uri/x/class/A"; "https://other.org/B"; ""]) = "Root" ∧
  length ["https://identifier.buildingsmart.org/uri/x/class/A";
          "https://other.org/B"; ""]
  = length (child_classes
              (record_of "Root" ["/uri/x/class/A"; "https://other.org/B"; ""])) ∧
  Forall (λ c, String.prefix "/" c = false)
    ["https://identifier.buildingsmart.org/uri/x/class/A";
     "https://other.org/B"; ""] ∧
  (∀ i c,
     child_classes (record_of "Root" ["/uri/x/class/A"; "https://other.org/B"; ""])
       !! i = Some c →
     ["https://identifier.buildingsmart.org/uri/x/class/A";
      "https://other.org/B"; ""] !! i
     = Some (if String.prefix "/" c then SITE +:+ c else c)).
Proof. apply (crawl_one_class_urls mixed_site "Root"). reflexivity. Defined.

Lemma cycle_reachable :
  reachable cycle_site "Root" (after_waves cycle_site 2 (initial "Root")).
Proof. unfold reachable. do 2 one_wave. vm_compute. apply rtc_refl. Qed.

Lemma results_are_fetched_pages_witness :
  (∀ u, u ∈ url <$> results (after_waves cycle_site 2 (initial "Root"))
        ↔ u ∈ visited (after_waves cycle_site 2 (initial "Root"))) ∧
  (∀ d, d ∈ results (after_waves cycle_site 2 (initial "Root")) →
        Wave.data_of cycle_site (url d) = Some d).
Proof. apply (results_are_fetched_pages cycle_site "Root"). apply cycle_reachable. Defined.

Lemma crawl_result_exact_witness :
  "C" ∈ url <$> cycle_records ↔
  discoverable cycle_site "Root" "C" ∧ succeeded cycle_site "C".
Proof.
  apply (crawl_result_exact cycle_site in_submission_order 4 "Root" cycle_records).
  - apply in_submission_order_ok.
  - apply cycle_in_submission_order.
Defined.

Lemma start_page_fails_witness :
  crawl_all_classes retry_site in_submission_order 2 "X" = Some (Returned []).
Proof.
  apply (start_page_fails retry_site in_submission_order 0 "X"
           (OtherException "no such page")).
  - apply in_submission_order_ok.
  - reflexivity.
Defined.

Lemma wave_queues_children_witness :
  ∃ u, u ∈ futures (after_waves cycle_site 1 (initial "Root")) ∧
       succeeded cycle_site u ∧ "C" ∈ children_of cycle_site u ∧
       "C" ≠ u ∧ "C" ∉ visited (after_waves cycle_site 1 (initial "Root")).
Proof.
  apply (wave_queues_children cycle_site _
           (after_waves cycle_site 2 (initial "Root"))).
  - apply wave_in_submission_order; [vm_compute; discriminate | reflexivity].
  - vm_compute. left.
Defined.

Ltac one_distinct_wave :=
  eapply rtc_l;
  [ split;
    [ apply wave_in_submission_order; [vm_compute; discriminate | reflexivity]
    | vm_compute; repeat constructor; set_solver ] | ].

Lemma cycle_distinct_waves :
  rtc (distinct_wave cycle_site) (initial "Root")
    (after_waves cycle_site 3 (initial "Root")).
Proof. do 3 one_distinct_wave. vm_compute. apply rtc_refl. Qed.

Lemma distinct_waves_distinct_records_witness :
  NoDup (url <$> results (after_waves cycle_site 3 (initial "Root"))).
Proof.
  apply (distinct_waves_distinct_records cycle_site "Root"). apply cycle_distinct_waves.
Defined.

End MoreCases.

Module MoreApiCases.
Import Data ApiGraph DataFacts DataMore Scenario.


Lemma cycle_api_closed : api_closed (api_class cycle_children) cycle_urls.
Proof.
  intros c cj child Hc. unfold cycle_urls in *.
  rewrite !elem_of_union, !elem_of_singleton in Hc.
  destruct Hc as [[[->| ->]| ->]| ->]; vm_compute; intros [= <-]; set_solver.
Qed.

Lemma api_only_request_errors children :
  only_request_errors (api_class children) api_properties api_relations.
Proof.
  intros c e [H|[H|H]]; [|done|done].
  unfold api_class in H. destruct (children c); [done|]. by injection H as <-.
Qed.


Lemma crawl_records_each_class_once_witness :
  ∃ walk,
    NoDup walk ∧
    default [] (match api_crawl cycle_children 5 "Root" with
                | Some (Returned out) => Some out
                | _ => None
                end)
    = omap (obj_of (api_class cycle_children) api_properties api_relations path_of)
        walk ∧
    ∀ u, u ∈ walk ↔
         api_discoverable (api_class cycle_children) api_properties api_relations
           path_of "Root" u.
Proof.
  apply (crawl_records_each_class_once (api_class cycle_children) api_properties
           api_relations path_of 5 "Root").
  vm_compute. reflexivity.
Defined.

End MoreApiCases.

(** ** Reading one class page *)

Module SoupFacts.
Import Main Soup.

Lemma contains_cons needle c s :
  contains needle s = true → contains needle (String c s) = true.
Proof.
  unfold contains. rewrite !bool_decide_eq_true. intros [n Hn].
  change (String.index 0 needle (String c s))
    with (if String.prefix needle (String c s) then Some 0
          else match String.index 0 needle s with
               | Some n => Some (S n)
               | None => None
               end).
  destruct (String.prefix needle (String c s)); [by eexists|].
  rewrite Hn. by eexists.
Qed.

Lemma contains_append needle a s :
  contains needle s = true → contains needle (a +:+ s) = true.
Proof.
  intros H. induction a as [|c a IH]; [done|]. by apply contains_cons.
Qed.

Lemma prefix_append a b s :
  String.prefix b s = true → String.prefix (a +:+ b) (a +:+ s) = true.
Proof.
  intros H. induction a as [|c a IH]; [done|]. simpl.
  by destruct (Ascii.ascii_dec c c).
Qed.

Section bs4.
Variable tag : Type.
Variable BeautifulSoup : string → tag.
Variable find : tag → query → option tag.
Variable find_all : tag → query → list tag.
Variable find_next : tag → query → option tag.
Variable text : tag → string.
Variable get_text_strip : tag → string.
Variable get : tag → string → option string.
Variable strip : string → string.
Variable lower : string → string.
#[local] Abbreviation relation_names := (relation_names tag find find_all text strip).
#[local] Abbreviation heading_matches := (heading_matches tag text lower).
#[local] Abbreviation titled_sections :=
  (titled_sections tag find find_all find_next text strip lower).
#[local] Abbreviation incoming_tables :=
  (incoming_tables tag find find_all text strip lower).
#[local] Abbreviation extract_relations :=
  (extract_relations tag find find_all find_next text strip lower).
#[local] Abbreviation incoming_row := (incoming_row tag find find_all get_text_strip get strip).
#[local] Abbreviation incoming_section :=
  (incoming_section tag find find_all find_next text get_text_strip get strip lower).
#[local] Abbreviation extract_incoming_relations :=
  (extract_incoming_relations tag find find_all find_next text get_text_strip get strip lower).
#[local] Abbreviation property_row := (property_row tag find find_all get_text_strip).
#[local] Abbreviation find_code := (find_code tag find text strip).
#[local] Abbreviation hrefs := (hrefs tag get).
#[local] Abbreviation find_child_classes := (find_child_classes tag find find_all get).
#[local] Abbreviation parse_html :=
  (parse_html tag BeautifulSoup find find_all find_next text get_text_strip get strip lower).

(** *** extract_relations *)

Lemma titled_sections_result section_titles divs :
  match titled_sections section_titles divs [] with
  | inl relations =>
      relations ≠ [] ∧
      ∃ div table,
        div ∈ divs ∧ heading_matches section_titles div ∧
        find_next div (named "table") = Some table ∧
        relations = relation_names table []
  | inr relations => relations = []
  end.
Proof.
  induction divs as [|div rest IH]; simpl; [done|].
  assert (match titled_sections section_titles rest [] with
          | inl relations =>
              relations ≠ [] ∧
              ∃ d table,
                d ∈ div :: rest ∧ heading_matches section_titles d ∧
                find_next d (named "table") = Some table ∧
                relations = relation_names table []
          | inr relations => relations = []
          end) as IH'.
  { destruct (titled_sections section_titles rest []) as [r|r]; [|done].
    destruct IH as (? & d & table & ? & ? & ? & ?).
    split; [done|]. exists d, table. split; [by right | done]. }
  destruct (existsb _ section_titles || contains "incoming" (lower (text div)))
    eqn:Hmatch; [|done].
  destruct (find_next div (named "table")) as [table|] eqn:Htable; [|done].
  case_decide as Hnil; [by rewrite Hnil|].
  split; [done|]. exists div, table. split; [left | done].
Qed.

Lemma incoming_tables_result tables :
  match incoming_tables tables [] with
  | inl relations =>
      relations ≠ [] ∧
      ∃ table, table ∈ tables ∧ relations = relation_names table []
  | inr relations => relations = []
  end.
Proof.
  induction tables as [|table rest IH]; simpl; [done|].
  assert (match incoming_tables rest [] with
          | inl relations =>
              relations ≠ [] ∧
              ∃ t, t ∈ table :: rest ∧ relations = relation_names t []
          | inr relations => relations = []
          end) as IH'.
  { destruct (incoming_tables rest []) as [r|r]; [|done].
    destruct IH as (? & t & ? & ?). split; [done|]. exists t.
    split; [by right | done]. }
  destruct (find table (named "thead")) as [thead|]; [|done].
  destruct (existsb _ (find_all thead (named "th"))); [|done].
  case_decide as Hnil; [by rewrite Hnil|].
  split; [done|]. exists table. split; [left | done].
Qed.

(** X10: the names that [extract_relations] returns are never a mix of
    two tables: the result is empty, or it is the names of the table that
    follows one heading passing the test, or the names of one table of the
    page; a heading passes the test as soon as it mentions "incoming",
    whatever titles are asked for. *)
Theorem relations_from_one_table soup section_titles :
  (extract_relations soup section_titles = [] ∨
   (∃ div table,
      div ∈ find_all soup (with_class "div" "bsdd-title-sub") ∧
      heading_matches section_titles div ∧
      find_next div (named "table") = Some table ∧
      extract_relations soup section_titles = relation_names table []) ∨
   (∃ table,
      table ∈ find_all soup (named "table") ∧
      extract_relations soup section_titles = relation_names table [])) ∧
  (∀ div, contains "incoming" (lower (text div)) = true →
          heading_matches section_titles div).
Proof.
  split.
  - unfold Soup.extract_relations.
    pose proof (titled_sections_result section_titles
                  (find_all soup (with_class "div" "bsdd-title-sub"))) as H1.
    destruct (titled_sections _ _ []) as [r|r].
    { right. left. by destruct H1 as (_ & div & table & ? & ? & ? & ?);
        exists div, table. }
    subst r.
    pose proof (incoming_tables_result (find_all soup (named "table"))) as H2.
    destruct (incoming_tables _ []) as [r|r].
    + right. right. by destruct H2 as (_ & table & ? & ?); exists table.
    + by left.
  - intros div H. unfold Soup.heading_matches. rewrite H. apply orb_true_r.
Qed.

(** *** extract_incoming_relations *)

Lemma incoming_section_first pre div post :
  Forall (λ d, contains "incoming" (lower (text d)) = false) pre →
  contains "incoming" (lower (text div)) = true →
  incoming_section (pre ++ div :: post) =
  match find_next div (named "table") with
  | Some table => omap incoming_row (find_all table (named "tr"))
  | None => []
  end.
Proof.
  intros Hpre Hdiv. induction Hpre as [|d pre Hd _ IH]; simpl.
  - by rewrite Hdiv.
  - by rewrite Hd.
Qed.

Lemma incoming_section_none divs :
  Forall (λ d, contains "incoming" (lower (text d)) = false) divs →
  incoming_section divs = [].
Proof. induction 1 as [|d divs Hd _ IH]; simpl; [done|]. by rewrite Hd. Qed.

Lemma incoming_row_cells row r :
  incoming_row row = Some r →
  find row (named "th") = None ∧ 6 ≤ length (find_all row (named "td")).
Proof.
  unfold Soup.incoming_row. destruct (find row (named "th")); [done|].
  destruct (find_all row (named "td")) as [|? [|? [|? [|? [|? [|? ?]]]]]];
    try done.
  intros _. split; [done|]. simpl. lia.
Qed.


(** *** parse_html *)

Lemma hrefs_raises anchors e :
  hrefs anchors = Raised e → e = OtherException "KeyError".
Proof.
  induction anchors as [|a rest IH]; simpl; [done|].
  unfold item. destruct (get a "href"); simpl; [|by intros [= <-]].
  destruct (hrefs rest); simpl; [done|]. intros [= <-]. by apply IH.
Qed.

Lemma find_child_classes_raises fields e :
  find_child_classes fields = Raised e → e = OtherException "KeyError".
Proof.
  induction fields as [|field rest IH]; simpl; [done|].
  destruct (find field (with_string "span" "Child classes")); [|done].
  destruct (hrefs (find_all field (with_href "a"))) eqn:E; simpl.
  - destruct (find_child_classes rest); simpl; [done|]. intros [= <-]. by apply IH.
  - intros [= <-]. by eapply hrefs_raises.
Qed.

Lemma parse_html_raises html e :
  parse_html html = Raised e → e = OtherException "KeyError".
Proof.
  unfold Soup.parse_html.
  destruct (find_child_classes _) as [child_classes|e'] eqn:E; simpl; [done|].
  intros [= <-]. by eapply find_child_classes_raises.
Qed.


(** *** extract_all_properties *)

Section selenium.
Variable driver : Type.
Variable page_source : driver → string.
Variable click_next : driver → option driver.
#[local] Abbreviation shown_properties :=
  (shown_properties tag BeautifulSoup find find_all find_next text get_text_strip
     lower driver page_source).
#[local] Abbreviation extract_all_properties_loop :=
  (extract_all_properties_loop tag BeautifulSoup find find_all find_next text
     get_text_strip lower driver page_source click_next).
#[local] Abbreviation extract_all_properties :=
  (extract_all_properties tag BeautifulSoup find find_all find_next text
     get_text_strip lower driver page_source click_next).
#[local] Abbreviation pages_shown := (pages_shown driver click_next).

Lemma pages_shown_forever fuel d :
  (∀ d', is_Some (click_next d')) → pages_shown fuel d = None.
Proof.
  intros Hnext. revert d. induction fuel as [|fuel IH]; intros d; [done|].
  simpl. destruct (Hnext d) as [d' ->]. by rewrite IH.
Qed.

Lemma pages_shown_chain fuel d pages :
  pages_shown fuel d = Some pages →
  head pages = Some d ∧
  (∀ i p, pages !! i = Some p → click_next p = pages !! S i).
Proof.
  revert d pages. induction fuel as [|fuel IH]; intros d pages; [done|].
  simpl. destruct (click_next d) as [d'|] eqn:E.
  - destruct (pages_shown fuel d') as [rest|] eqn:Erest; [|done].
    intros [= <-]. destruct (IH _ _ Erest) as (Hhead & Hnext).
    split; [done|].
    intros [|i] p; simpl.
    + intros [= <-]. rewrite E. by destruct rest.
    + apply Hnext.
  - intros [= <-]. split; [done|].
    intros [|i] p; simpl; [by intros [= <-] | done].
Qed.

Lemma extract_all_properties_loop_pages fuel d properties :
  extract_all_properties_loop fuel d properties =
  (λ pages, (properties ++ pages ≫= shown_properties, default d (last pages)))
    <$> pages_shown fuel d.
Proof.
  revert d properties. induction fuel as [|fuel IH]; intros d properties; [done|].
  simpl. destruct (click_next d) as [d'|] eqn:E.
  - rewrite IH. destruct (pages_shown fuel d') as [pages|] eqn:Ep; simpl; [|done].
    rewrite <- app_assoc. do 2 f_equal.
    destruct (pages_shown_chain _ _ _ Ep) as [Hhead _].
    destruct pages as [|p pages]; [done|]. rewrite last_cons_cons.
    destruct (last (p :: pages)) eqn:El; [done|]. by apply last_None in El.
  - simpl. by rewrite app_nil_r.
Qed.

(** X13: [extract_all_properties] returns the rows of the pages it went
    through, page after page in the order shown: the first page, then what
    each click on "next" leads to, up to the page where the click fails,
    on which it leaves the browser.  If the click never fails the loop
    never returns. *)
Theorem properties_page_after_page :
  (∀ fuel d,
     extract_all_properties fuel d =
     (λ pages, (pages ≫= shown_properties, default d (last pages)))
       <$> pages_shown fuel d) ∧
  (∀ fuel d pages,
     pages_shown fuel d = Some pages →
     head pages = Some d ∧
     (∀ i p, pages !! i = Some p → click_next p = pages !! S i)) ∧
  ((∀ d', is_Some (click_next d')) →
   ∀ fuel d, extract_all_properties fuel d = None).
Proof.
  split; [|split].
  - intros fuel d. unfold Soup.extract_all_properties.
    by rewrite extract_all_properties_loop_pages.
  - apply pages_shown_chain.
  - intros Hnext fuel d. unfold Soup.extract_all_properties.
    by rewrite extract_all_properties_loop_pages, pages_shown_forever.
Qed.

End selenium.

(** *** crawl_one_class and its browser *)

Section browser.
Variable driver : Type.
Variable page_source : driver → string.
Variable click_next : driver → option driver.
Variable new_driver_get : string → result driver.
Variable click_accordion : string → driver → driver * option exc.
#[local] Abbreviation extract_all_properties :=
  (extract_all_properties tag BeautifulSoup find find_all find_next text
     get_text_strip lower driver page_source click_next).
#[local] Abbreviation browser_crawl_one_class :=
  (Soup.crawl_one_class tag BeautifulSoup find find_all find_next text
     get_text_strip get strip lower driver page_source click_next
     new_driver_get click_accordion).


End browser.

(** *** get_all_class_urls *)

Section requests.
Variable requests_get_text : string → result string.
#[local] Abbreviation get_all_class_urls :=
  (get_all_class_urls tag BeautifulSoup find_all get requests_get_text).

(** X14: the URLs that [get_all_class_urls] returns are all different;
    they are the links of the page that start with "/uri/" and contain
    "/class/", each with the site in front, and no other: every one of
    them starts with the site followed by "/uri/" and contains
    "/class/". *)
Theorem class_urls_listed base_url urls :
  get_all_class_urls base_url = Returned urls →
  NoDup urls ∧
  ∃ html links,
    requests_get_text base_url = Returned html ∧
    hrefs (find_all (BeautifulSoup html) (with_href "a")) = Returned links ∧
    (∀ u, u ∈ urls ↔
          ∃ href, href ∈ links ∧ String.prefix "/uri/" href = true ∧
                  contains "/class/" href = true ∧ u = SITE +:+ href) ∧
    Forall (λ u, String.prefix (SITE +:+ "/uri/") u = true ∧
                 contains "/class/" u = true) urls.
Proof.
  unfold Soup.get_all_class_urls.
  destruct (requests_get_text base_url) as [html|]; simpl; [|done].
  destruct (hrefs _) as [links|] eqn:E; simpl; [|done].
  intros [= <-]. split; [apply NoDup_elements|].
  exists html, links. split; [done|]. split; [done|].
  assert (∀ u, u ∈ elements (list_to_set (C:=gset string)
                 ((λ href, SITE +:+ href)
                    <$> filter (λ h, is_class_link h = true) links)) ↔
               ∃ href, href ∈ links ∧ String.prefix "/uri/" href = true ∧
                       contains "/class/" href = true ∧ u = SITE +:+ href) as Hin.
  { intros u. rewrite elem_of_elements, elem_of_list_to_set, list_elem_of_fmap.
    unfold is_class_link. split.
    - intros (href & -> & [Hlink Hhref]%list_elem_of_filter).
      apply andb_true_iff in Hlink as [? ?]. by exists href.
    - intros (href & ? & ? & ? & ->). exists href. split; [done|].
      apply list_elem_of_filter. split; [|done]. by apply andb_true_iff. }
  split; [done|]. apply Forall_forall. intros u Hu.
  apply Hin in Hu as (href & _ & Hpre & Hcls & ->). split.
  - by apply prefix_append.
  - by apply contains_append.
Qed.

End requests.

End bs4.

End SoupFacts.

Module SoupCases.
Import Main Soup SoupFacts.

Lemma class_urls_listed_witness :
  NoDup ["https://identifier.buildingsmart.org/uri/buildingsmart/ifc/4.3/class/IfcWall"] ∧
  ∃ html links,
    (λ _ : string, Returned "<html>") "https://identifier.buildingsmart.org"
    = Returned html ∧
    hrefs nat listing_get (listing_find_all ((λ _ : string, 0) html) (with_href "a"))
    = Returned links ∧
    (∀ u, u ∈ ["https://identifier.buildingsmart.org/uri/buildingsmart/ifc/4.3/class/IfcWall"] ↔
          ∃ href, href ∈ links ∧ String.prefix "/uri/" href = true ∧
                  contains "/class/" href = true ∧ u = SITE +:+ href) ∧
    Forall (λ u, String.prefix (SITE +:+ "/uri/") u = true ∧
                 contains "/class/" u = true)
      ["https://identifier.buildingsmart.org/uri/buildingsmart/ifc/4.3/class/IfcWall"].
Proof.
  apply (class_urls_listed nat (λ _, 0) listing_find_all listing_get
           (λ _, Returned "<html>") "https://identifier.buildingsmart.org").
  vm_compute. reflexivity.
Defined.

End SoupCases.
